(** * Create_dataset: the dataset construction pipeline of NFT_rec

    A shallow embedding of the notebook [Our model/Create_dataset.ipynb]:
    the feature-presence and USER_CUT filters, the price-movement label,
    the index mapper, the per-user holdout split, the adjacency
    dictionary and the item-feature aligner.  Data frames are lists of
    rows (row order and duplicates matter), Python dictionaries are
    [gmap]s, Python sets are [gset]s, and every cell that can raise
    returns an [option]. *)

From Stdlib Require Import ZArith String Ascii QArith SpecFloat.
From stdpp Require Import base list gmap strings sorting.

Open Scope string_scope.
Open Scope list_scope.
Open Scope nat_scope.

(** ** Data model *)

(** One row of [dataset/transactions/<COLLECTION>.csv], restricted to
    the three columns the notebook reads.  The 'Price' column is a
    column of text, as the data model has it (a price is a string with
    a currency marker): a frame with an empty 'Price' cell, which
    [read_csv] turns into NaN, or with a 'Price' column of numbers
    only is not a value of this type, and what cell 6 does on such a
    frame is not described here. *)
Record transaction_row := TransactionRow {
  Buyer : string;
  Token_ID : Z;
  Price : string;
}.

Global Instance transaction_row_eq_dec : EqDecision transaction_row.
Proof. solve_decision. Defined.

(** A feature table read with [index_col=0]: rows of (index, payload).
    The index of a data frame may repeat, so this is a list and not a
    map. *)
Abbreviation table V := (list (Z * V)).

(** [t.index] *)
Definition index {V} (t : table V) : list Z := t.*1.

(** ** Threshold filter (cells 3 and 5) *)

Section threshold_filter.
Context {vec uvec : Type}.
Implicit Types (df : list transaction_row).
Implicit Types (image text price transaction : table vec).
Implicit Types (df_feature : list (string * uvec)).

(** [set(image.index).intersection(set(text.index))
      .intersection(set(price.index)).intersection(set(transaction.index))] *)
Definition indices image text price transaction : gset Z :=
  list_to_set (index image) ∩ list_to_set (index text)
    ∩ list_to_set (index price) ∩ list_to_set (index transaction).

(** Cell 3: keep the rows whose 'Token ID' is in [indices], then of
    those the rows whose 'Buyer' occurs in [df_feature['Buyer']]. *)
Definition feature_filter df image text price transaction df_feature
    : list transaction_row :=
  let df := filter (λ r, Token_ID r ∈ indices image text price transaction) df in
  filter (λ r, Buyer r ∈ df_feature.*1) df.

(** [Series.value_counts()]: the number of occurrences of each value. *)
Definition value_counts (col : list string) : gmap string nat :=
  foldr (λ k m, <[k := S (default 0 (m !! k))]> m) ∅ col.

(** Cell 5: [user_count[user_count >= CUT].index.tolist()] and the
    [isin] selection on it. *)
Definition user_cut (CUT : nat) df : list transaction_row :=
  let user_count := value_counts (Buyer <$> df) in
  let user_count := filter (λ kv, CUT ≤ kv.2) user_count in
  let user_count := (map_to_list user_count).*1 in
  filter (λ r, Buyer r ∈ user_count) df.

Definition threshold_filter (CUT : nat) df image text price transaction df_feature :=
  user_cut CUT (feature_filter df image text price transaction df_feature).

(** Number of rows of [df] bought by [u]. *)
Definition rows_of_buyer (u : string) df : nat :=
  length (filter (λ r, Buyer r = u) df).
End threshold_filter.

(** ** Label generator (cell 6) *)

(** [str.contains("\$")]: the pattern is an escaped dollar sign, so
    it matches when the string has a dollar character anywhere. *)
Fixpoint contains_dollar (s : string) : bool :=
  match s with
  | "" => false
  | String c s' => if Ascii.eqb c "$" then true else contains_dollar s'
  end.

(** [x.split(' ')]: split at every single space; empty pieces are kept
    and the result is never empty. *)
Fixpoint split_space (s : string) : list string :=
  match s with
  | "" => [""]
  | String c s' =>
      if Ascii.eqb c " " then "" :: split_space s'
      else match split_space s' with
           | [] => [String c ""]
           | t :: ts => String c t :: ts
           end
  end.

(** The slice [t[2:-1]]: drop two characters in front and one at the
    end; empty when [t] has at most three characters. *)
Definition slice_2_m1 (t : string) : string :=
  substring 2 (String.length t - 3) t.

(** [t.replace(c, '')] for a one-character [c]. *)
Fixpoint remove_char (c : ascii) (t : string) : string :=
  match t with
  | "" => ""
  | String d t' =>
      if Ascii.eqb d c then remove_char c t' else String d (remove_char c t')
  end.

(** The text handed to the float conversion:
    [x.split(' ')[2][2:-1].replace(',', '').replace('.', '')].
    [None] is the IndexError of a string with fewer than three pieces. *)
Definition price_text (x : string) : option string :=
  t ← split_space x !! 2;
  Some (remove_char "." (remove_char "," (slice_2_m1 t))).

Definition digit_of (c : ascii) : option Z :=
  let n := nat_of_ascii c in
  if (48 <=? n) && (n <=? 57) then Some (Z.of_nat (n - 48)) else None.

Fixpoint digits_value (acc : Z) (t : string) : option Z :=
  match t with
  | "" => Some acc
  | String c t' => d ← digit_of c; digits_value (10 * acc + d) t'
  end.

(** Rounding of a non-negative integer to the nearest binary64 value
    (ties to even): integers below 2^53 are exact, larger ones keep 53
    significant bits. *)
Definition round_binary64 (z : Z) : Z :=
  if (z <? 2 ^ 53)%Z then z
  else
    let e := (Z.log2 z - 52)%Z in
    let q := Z.shiftr z e in
    let r := Z.land z (Z.ones e) in
    let half := (2 ^ (e - 1))%Z in
    let q' := if (r <? half)%Z then q
              else if (half <? r)%Z then (q + 1)%Z
              else if Z.even q then q else (q + 1)%Z in
    Z.shiftl q' e.

(** [astype(float)] on one string.  The model covers what is left of a
    price such as [1,234.56]: a non-empty run of ASCII digits, whose
    float is the rounded value of the numeral and is kept as that
    integer.  On the empty string the conversion raises ValueError
    ([None]).  Signs, exponents, blanks, the spellings of inf and nan
    and numerals that overflow to inf are not covered by the model and
    give [None] as well. *)
Definition to_float (t : string) : option Z :=
  match t with
  | "" => None
  | _ =>
      z ← digits_value 0 t;
      let f := round_binary64 z in
      if (f <? 2 ^ 1024)%Z then Some f else None
  end.

Definition parse_price (x : string) : option Z :=
  price_text x ≫= to_float.

(** Price of the first later row of the same 'Token ID'. *)
Fixpoint next_price (tok : Z) (rest : list (Z * Z)) : option Z :=
  match rest with
  | [] => None
  | (t, p) :: rest' => if decide (t = tok) then Some p else next_price tok rest'
  end.

(** [df.groupby('Token ID')['Price'].diff(-1)] on rows (token, price):
    each row minus the next row of its group, NaN ([None]) on the last
    row of a group.  The float difference of two finite floats has the
    sign of the exact difference, and only the sign is used below. *)
Fixpoint groupby_diff_m1 (rows : list (Z * Z)) : list (option Z) :=
  match rows with
  | [] => []
  | (t, p) :: rest => ((λ q, p - q)%Z <$> next_price t rest) :: groupby_diff_m1 rest
  end.

(** [fillna(0)], then [lambda x: -x], then [lambda x: 1 if x > 0 else 0]. *)
Definition fillna_0 (x : option Z) : Z := default 0%Z x.
Definition threshold_label (x : Z) : nat := if decide (x > 0)%Z then 1 else 0.
Definition Price_diff (rows : list (Z * Z)) : list nat :=
  threshold_label <$> (Z.opp <$> (fillna_0 <$> groupby_diff_m1 rows)).

(** A row of the frame after cell 6. *)
Record labeled_row := LabeledRow {
  l_Buyer : string;
  l_Token_ID : Z;
  l_Price : Z;
  l_Price_diff : nat;
}.

(** Cell 6 up to the label column: drop the rows whose 'Price' has no
    dollar sign, convert the price of every remaining row (an error in
    any row aborts), label the rows. *)
Definition label_generator (df : list transaction_row) : option (list labeled_row) :=
  let df := filter (λ r, contains_dollar (Price r) = true) df in
  prices ← mapM parse_price (Price <$> df);
  let labels := Price_diff (zip (Token_ID <$> df) prices) in
  Some (zip_with (λ r pl, LabeledRow (Buyer r) (Token_ID r) pl.1 pl.2)
          df (zip prices labels)).

(** *** Reference reading of a price

    What the amount in a 'Price' string denotes as a decimal numeral:
    commas group the digits, the point starts the decimals.  This is
    the "true decimal price" the parsed value is compared with; the
    notebook never computes it. *)
Fixpoint decimal_scan (m : Z) (d : option nat) (t : string) : option (Z * nat) :=
  match t with
  | "" => Some (m, default 0 d)
  | String c t' =>
      if Ascii.eqb c "," then decimal_scan m d t'
      else if Ascii.eqb c "." then
        match d with
        | None => decimal_scan m (Some 0) t'
        | Some _ => None
        end
      else dg ← digit_of c; decimal_scan (10 * m + dg) (S <$> d) t'
  end.

Definition true_price (x : string) : option Q :=
  t ← split_space x !! 2;
  '(m, d) ← decimal_scan 0 None (slice_2_m1 t);
  Some (Qmake m (Pos.of_nat (10 ^ d))).

Fixpoint has_space (s : string) : bool :=
  match s with
  | "" => false
  | String c s' => if Ascii.eqb c " " then true else has_space s'
  end.

(** ** Index mapper (cell 8) *)

Section np_unique.
Context {A : Type} (R : relation A) `{!RelDecision R} `{!EqDecision A}.

(** The mask [ar[1:] != ar[:-1]] of [np.unique]: an element of the
    sorted array is kept when it differs from its predecessor. *)
Fixpoint drop_repeats_from (prev : A) (ar : list A) : list A :=
  match ar with
  | [] => []
  | x :: ar' =>
      if decide (x = prev) then drop_repeats_from x ar'
      else x :: drop_repeats_from x ar'
  end.

Definition drop_repeats (ar : list A) : list A :=
  match ar with
  | [] => []
  | x :: ar' => x :: drop_repeats_from x ar'
  end.

(** [np.unique(ar)]: sort, then keep the first element of every run. *)
Definition np_unique (ar : list A) : list A :=
  drop_repeats (merge_sort R ar).
End np_unique.

(** Order of Python strings (by code point, here by byte). *)
Definition str_le (s1 s2 : string) : Prop := String.leb s1 s2 = true.

Global Instance str_le_dec : RelDecision str_le.
Proof. intros s1 s2. unfold str_le. apply _. Defined.

(** [for i in range(len(uniq)): mapping[uniq[i]] = i + offset] *)
Definition mapping_loop {K} `{Countable K} (uniq : list K) (offset : nat)
    : gmap K nat :=
  foldl (λ m i, match uniq !! i with
                | Some k => <[k := i + offset]> m
                | None => m
                end) ∅ (seq 0 (length uniq)).

(** [len(set(item))] *)
Definition len_set `{Countable K} (col : list K) : nat :=
  size (list_to_set col : gset K).

Definition mapping_i (item : list Z) : gmap Z nat :=
  mapping_loop (np_unique Z.le item) 0.

Definition mapping_u (user : list string) (item : list Z) : gmap string nat :=
  mapping_loop (np_unique str_le user) (len_set item).

(** A row [user_, item_, label] of the array [inter]. *)
Record inter_row := InterRow {
  i_user : nat;
  i_item : nat;
  i_label : nat;
}.

Global Instance inter_row_eq_dec : EqDecision inter_row.
Proof. solve_decision. Defined.

(** Cell 8, step 3.  A dictionary access raises KeyError ([None]) on a
    key that is missing. *)
Definition make_inter (user : list string) (item : list Z) (labels : list nat)
    : option (list inter_row) :=
  user_ ← mapM (λ u, mapping_u user item !! u) user;
  item_ ← mapM (λ i, mapping_i item !! i) item;
  Some (zip_with (λ u il, InterRow u il.1 il.2) user_ (zip item_ labels)).

(** ** Split engine (cell 12) *)

(** The generator behind [np.random] and [RandomState(seed)]: states
    [G], the state a seed initialises, and [permutation(n)], a
    rearrangement of [range(n)] that advances the state. *)
Class RandomState (G : Type) := {
  seed : Z → G;
  permutation : G → nat → list nat * G;
  permutation_Permutation g n : (permutation g n).1 ≡ₚ seq 0 n;
}.

(** What [permutation(n)] can return: every rearrangement of
    [range(n)], listed once.  A generator is uniform when each entry of
    this list is as likely as any other. *)
Fixpoint rearrangements (fuel : nat) (l : list nat) : list (list nat) :=
  match fuel with
  | 0 => [[]]
  | S fuel' =>
      l ≫= λ x, (x ::.) <$> rearrangements fuel' (filter (λ y, y ≠ x) l)
  end.

Definition sample_space (n : nat) : list (list nat) :=
  rearrangements n (seq 0 n).

(** Positions of the rows that satisfy [P], ascending ([np.where]). *)
Definition np_where {A} (P : A → Prop) `{!∀ x, Decision (P x)} (l : list A)
    : list nat :=
  (filter (λ ix, P ix.2) (imap pair l)).*1.

(** [arr[idx]] with a list of positions; IndexError is [None]. *)
Definition take_rows {A} (arr : list A) (idx : list nat) : option (list A) :=
  mapM (λ i, arr !! i) idx.

(** [np.delete(arr, idx, axis=0)] for positions that are in range: the
    rows at the other positions, in order. *)
Definition np_delete {A} (arr : list A) (idx : list nat) : list A :=
  (filter (λ ix, ix.1 ∉ idx) (imap pair arr)).*2.

(** [int(n * 0.4)], with the product taken exactly.  The notebook
    multiplies in binary64; [num_sample_binary64] below is that
    computation, and the two agree on every length checked in
    [num_sample_binary64_agrees]. *)
Definition num_sample (n : nat) : nat := (n * 4) / 10.

(** The binary64 nearest to 0.4 is 7205759403792794 * 2^-54. *)
Definition binary64_0_4 : spec_float :=
  S754_finite false 7205759403792794 (-54).

(** [int(x)] for a float that is not negative: truncation. *)
Definition int_of_binary64 (x : spec_float) : Z :=
  match x with
  | S754_finite false m e =>
      if (0 <=? e)%Z then Z.pos m * 2 ^ e else Z.pos m / 2 ^ (- e)
  | _ => 0
  end%Z.

Definition binary64_times_0_4 (z : Z) : Z :=
  int_of_binary64
    (SFmul 53 1024 (binary_normalize 53 1024 z 0 false) binary64_0_4).

Definition num_sample_binary64 (n : nat) : nat :=
  Z.to_nat (binary64_times_0_4 (Z.of_nat n)).

(** [int(z * 0.4)] in binary64 against the exact quotient, for the
    [fuel] integers from [z] on. *)
Fixpoint times_0_4_agrees (fuel : nat) (z : Z) : bool :=
  match fuel with
  | 0 => true
  | S fuel' =>
      (binary64_times_0_4 z =? 4 * z / 10)%Z && times_0_4_agrees fuel' (z + 1)
  end.

(** [inter[i][0]] *)
Definition user_at (inter : list inter_row) (i : nat) : option nat :=
  i_user <$> inter !! i.

Section split.
Context `{RandomState G}.

(** [np.random.choice(a, size, replace=False)]: the first [size]
    entries of a permutation of the positions of [a]; ValueError
    ([None]) when [size] exceeds the population. *)
Definition random_choice (g : G) (a : list nat) (size : nat)
    : option (list nat * G) :=
  if decide (size ≤ length a) then
    let '(p, g') := permutation g (length a) in
    r ← take_rows a (take size p);
    Some (r, g')
  else None.

(** The loop over [np.unique(inter[:,0])], threading the state of the
    global generator and accumulating [random_idx_list]. *)
Fixpoint holdout_loop (inter : list inter_row) (users : list nat) (g : G)
    (random_idx_list : list nat) : option (list nat * G) :=
  match users with
  | [] => Some (random_idx_list, g)
  | u :: users' =>
      let rows := np_where (λ r, i_user r = u) inter in
      '(random_idx, g') ← random_choice g rows (num_sample (length rows));
      holdout_loop inter users' g' (random_idx_list ++ random_idx)
  end.

(** [train_test_split(arr, test_size=0.5, random_state=s)]: a shuffle
    split with [n_test = ceil(0.5 * n)] and [n_train = n - n_test]
    drawn from a fresh [RandomState(s)]; ValueError ([None]) when the
    train part would be empty. *)
Definition train_test_split (arr : list nat) (random_state : Z)
    : option (list nat * list nat) :=
  let n := length arr in
  let n_test := (n + 1) / 2 in
  let n_train := n - n_test in
  if decide (n_train = 0) then None
  else
    let p := (permutation (seed random_state) n).1 in
    train ← take_rows arr (take n_train (drop n_test p));
    test ← take_rows arr (take n_test p);
    Some (train, test).

(** What one round of the loop yields for its user [u]: as many
    positions as [num_sample] says, the front of a rearrangement of the
    positions of the rows of [u]. *)
Definition picked (inter : list inter_row) (u : nat) (pick : list nat) : Prop :=
  length pick = num_sample (length (filter (λ r, i_user r = u) inter))
  ∧ ∃ rest, pick ++ rest ≡ₚ np_where (λ r, i_user r = u) inter.

(** The loop of cell 12 from its empty lists. *)
Definition holdout_sample (inter : list inter_row) (g : G)
    : option (list nat * G) :=
  holdout_loop inter (np_unique Nat.le (i_user <$> inter)) g [].

Record split_result := SplitResult {
  random_idx_list : list nat;
  train : list inter_row;
  train_idx_list : gset nat;
  valid_idx_list : list nat;
  test_idx_list : list nat;
  valid : list inter_row;
  test : list inter_row;
}.

(** Cell 12 from the state [g] of the global generator. *)
Definition data_split (inter : list inter_row) (g : G) : option split_result :=
  '(random_idx_list, _) ← holdout_sample inter g;
  let train := np_delete inter random_idx_list in
  let train_idx_list : gset nat :=
    list_to_set (seq 0 (length inter)) ∖ list_to_set random_idx_list in
  '(valid_idx_list, test_idx_list) ← train_test_split random_idx_list 42;
  valid ← take_rows inter valid_idx_list;
  test ← take_rows inter test_idx_list;
  Some (SplitResult random_idx_list train train_idx_list
          valid_idx_list test_idx_list valid test).
End split.

(** ** Adjacency builder (cell 22) and the grouping of cells 14 and 17 *)

(** The append-or-create loop over the rows of an array. *)
Definition group_items (rows : list inter_row) : gmap nat (list nat) :=
  foldl (λ d r, match d !! i_user r with
                | Some items => <[i_user r := items ++ [i_item r]]> d
                | None => <[i_user r := [i_item r]]> d
                end) ∅ rows.

(** Cell 22 runs the loop over [inter]. *)
Definition adj_dict (inter : list inter_row) : gmap nat (list nat) :=
  group_items inter.

(** ** Feature aligner (cells 24 and 25) *)

Section feature_aligner.
Context {vec : Type}.

(** [t.loc[t.index.isin(item_unique)]] *)
Definition restrict (item_unique : list Z) (t : table vec) : table vec :=
  filter (λ kv, kv.1 ∈ item_unique) t.

(** [t.index = t.index.map(mapping)]: a key that the dictionary lacks
    becomes NaN ([None]). *)
Definition reindex (mapping : gmap Z nat) (t : table vec)
    : list (option nat * vec) :=
  prod_map (λ k, mapping !! k) id <$> t.

(** [np.sort] of an index with NaN entries: the numbers ascending,
    then the NaNs. *)
Definition np_sort (ks : list (option nat)) : list (option nat) :=
  (Some <$> merge_sort Nat.le (omap id ks))
    ++ filter (λ k, k = None) ks.

(** [np.array_equal]: same length and equal entries; NaN differs from
    everything, itself included. *)
Definition array_equal (xs ys : list (option nat)) : bool :=
  bool_decide (xs = ys) && forallb (λ x, bool_decide (is_Some x)) xs.

Record aligned := Aligned {
  a_image : list (option nat * vec);
  a_text : list (option nat * vec);
  a_price : list (option nat * vec);
  a_transaction : list (option nat * vec);
}.

(** Cells 24 and 25 up to the assertions; a failing [assert] is [None]. *)
Definition feature_aligner (item : list Z) (image text price transaction : table vec)
    : option aligned :=
  let item_unique := np_unique Z.le item in
  let image := reindex (mapping_i item) (restrict item_unique image) in
  let text := reindex (mapping_i item) (restrict item_unique text) in
  let price := reindex (mapping_i item) (restrict item_unique price) in
  let transaction := reindex (mapping_i item) (restrict item_unique transaction) in
  if array_equal (np_sort image.*1) (np_sort text.*1) then
    if array_equal (np_sort image.*1) (np_sort price.*1) then
      if array_equal (np_sort image.*1) (np_sort transaction.*1) then
        Some (Aligned image text price transaction)
      else None
    else None
  else None.
End feature_aligner.

(** ** The notebook, top to bottom *)

Section create_dataset.
Context {vec uvec : Type} `{RandomState G}.

Record artifacts := Artifacts {
  out_inter : list inter_row;
  out_num_user : nat;
  out_num_item : nat;
  out_split : split_result;
  out_adj_dict : gmap nat (list nat);
  out_feat : @aligned vec;
}.

(** Cells 3 to 25 on the frames read from disk, with USER_CUT [CUT]
    and the global generator in state [g].  The cells that only write
    files for RecBole (7, 13), scale the user features (10) or regroup
    [valid] and [test] for saving (14 to 20) feed none of the artifacts
    below and are left out. *)
Definition create_dataset (CUT : nat) (df_collection : list transaction_row)
    (image text price transaction : table vec)
    (df_feature : list (string * uvec)) (g : G) : option artifacts :=
  let df := threshold_filter CUT df_collection image text price transaction df_feature in
  df ← label_generator df;
  let user := l_Buyer <$> df in
  let item := l_Token_ID <$> df in
  let labels := l_Price_diff <$> df in
  inter ← make_inter user item labels;
  split ← data_split inter g;
  feat ← feature_aligner item image text price transaction;
  Some (Artifacts inter (len_set user) (len_set item) split (adj_dict inter) feat).
End create_dataset.

(** ** Grouped splits (cells 14 to 19)

    [valid_dict] and [test_dict] are filled by the loop of cell 22 and
    then read in the order of their keys, so here the dictionary keeps
    its insertion order: a list of (key, value) with distinct keys. *)

(** [if k in d: d[k].append(v) else: d[k] = [v]] *)
Fixpoint dict_append (d : list (nat * list nat)) (k v : nat)
    : list (nat * list nat) :=
  match d with
  | [] => [(k, [v])]
  | (k', vs) :: d' =>
      if decide (k' = k) then (k', vs ++ [v]) :: d'
      else (k', vs) :: dict_append d' k v
  end.

Definition group_dict (rows : list inter_row) : list (nat * list nat) :=
  foldl (λ d r, dict_append d (i_user r) (i_item r)) [] rows.

(** Cells 16 and 19: [[key] + val] for every item of the dictionary. *)
Definition grouped_array (d : list (nat * list nat)) : list (list nat) :=
  (λ kv, kv.1 :: kv.2) <$> d.

(** Reading a saved list back: the (user, item) pairs it stands for. *)
Definition array_pairs (l : list nat) : list (nat * nat) :=
  match l with
  | [] => []
  | u :: items => pair u <$> items
  end.

(** Cells 15 and 18: [for i in d.values(): valid_list += i]. *)
Definition pooled_items (d : list (nat * list nat)) : list nat :=
  concat d.*2.

(** The distinct entries of a column in the order of their first
    occurrence. *)
Definition first_seen (col : list nat) : list nat :=
  foldl (λ acc u, if decide (u ∈ acc) then acc else acc ++ [u]) [] col.

(** ** User features (cell 10) *)

Section user_features.
Context {uvec : Type} (isna : uvec → bool).

(** Cell 10 from the frame after the scaling of its three numeric
    columns (the scaler works on floats and leaves the 'Buyer' column
    and the position of every NaN as they are).  [isna v] says that the
    columns [v] of a row hold a NaN.  The 'Buyer' of a row becomes
    [mapping_u[x]], or NaN ([None]) without such a key; [dropna] removes
    the rows with a NaN in any column; the 'Buyer' column becomes the
    index. *)
Definition user_feat (mapping : gmap string nat)
    (df_feature : list (string * uvec)) : list (nat * uvec) :=
  let df := prod_map (λ x, mapping !! x) id <$> df_feature in
  let df := filter (λ kv, is_Some kv.1 ∧ isna kv.2 = false) df in
  omap (λ kv, (λ i, (i, kv.2)) <$> kv.1) df.
End user_features.

(** ** Size of the holdout *)

(** Number of positions the loop of cell 12 holds out: [num_sample] of
    the row count of every user of [inter]. *)
Definition held_out_size (inter : list inter_row) : nat :=
  sum_list ((λ u, num_sample (length (filter (λ r, i_user r = u) inter)))
              <$> np_unique Nat.le (i_user <$> inter)).

(** ** A generator for running the notebook

    A state is a tape of raw draws.  [permutation] picks the next
    element of the result among the remaining positions with one draw
    (0 once the tape is used up); a seed initialises the tape with the
    seed itself.  It stands in for numpy's Mersenne Twister where a run
    is computed; the general statements below hold for every generator
    with the permutation law. *)
Fixpoint tape_shuffle (fuel : nat) (tape pool : list nat) : list nat * list nat :=
  match fuel with
  | 0 => ([], tape)
  | S fuel' =>
      let i := hd 0 tape mod length pool in
      match pool !! i with
      | Some x =>
          let '(rest, tape') := tape_shuffle fuel' (tl tape) (delete i pool) in
          (x :: rest, tape')
      | None => ([], tape)
      end
  end.

Definition tape_permutation (tape : list nat) (n : nat) : list nat * list nat :=
  tape_shuffle n tape (seq 0 n).

Lemma tape_shuffle_Permutation fuel tape pool :
  fuel = length pool → (tape_shuffle fuel tape pool).1 ≡ₚ pool.
Proof.
  revert tape pool. induction fuel as [|fuel IH]; intros tape pool Hfuel.
  { by destruct pool. }
  simpl.
  destruct (lookup_lt_is_Some_2 pool (hd 0 tape mod length pool)) as [x Hx].
  { apply Nat.mod_upper_bound. lia. }
  rewrite Hx.
  specialize (IH (tl tape) (delete (hd 0 tape mod length pool) pool)).
  destruct (tape_shuffle fuel _ _) as [rest tape'] eqn:Hsh. simpl in *.
  rewrite (delete_Permutation _ _ _ Hx). constructor. apply IH.
  rewrite length_delete by eauto. lia.
Qed.

Global Program Instance tape_random_state : RandomState (list nat) := {|
  seed s := [Z.to_nat s];
  permutation := tape_permutation;
|}.
Next Obligation.
  intros tape n. apply tape_shuffle_Permutation. by rewrite length_seq.
Qed.

(** ** Frames used in the examples *)

Definition sale (buyer : string) (token : Z) (usd : string) : transaction_row :=
  TransactionRow buyer token ("0.1 ETH ($" +:+ usd +:+ ")").

(** Feature tables with one row for each of the items 1 to 4. *)
Definition four_items : table unit := [(1, ()); (2, ()); (3, ()); (4, ())]%Z.


(** The two-row frame of the scenario: item 1 sold for $10, then $8. *)
Definition frame_10_then_8 : list transaction_row :=
  [TransactionRow "A" 1 "0.1 ETH ($10)"; TransactionRow "A" 1 "0.1 ETH ($8)"].

(** The array [inter] of [frame_five_sales] below: five rows of one
    user. *)
Definition inter_five : list inter_row :=
  [InterRow 4 0 1; InterRow 4 1 0; InterRow 4 2 0; InterRow 4 0 0;
   InterRow 4 3 0].

(** Five sales to one buyer, all with a dollar amount. *)
Definition frame_five_sales : list transaction_row :=
  [sale "A" 1 "10.00"; sale "A" 2 "11.00"; sale "A" 3 "5.00";
   sale "A" 1 "12.50"; sale "A" 4 "7.50"].

(** * Properties *)

(** Two selections of a frame agree when their predicates agree on
    the rows of the frame. *)
Lemma filter_ext_elem {A} (P Q : A → Prop)
    `{!∀ x, Decision (P x), !∀ x, Decision (Q x)} (l : list A) :
  (∀ x, x ∈ l → P x ↔ Q x) → filter P l = filter Q l.
Proof.
  induction l as [|a l IH]; intros HPQ; [done|].
  rewrite !filter_cons, IH by (intros; apply HPQ; by right).
  apply decide_ext, HPQ. by left.
Qed.


Lemma filter_all {A} (P : A → Prop) `{!∀ x, Decision (P x)} (l : list A) :
  (∀ x, x ∈ l → P x) → filter P l = l.
Proof.
  induction l as [|x l IH]; intros HP; [done|].
  rewrite filter_cons_True by (apply HP; left).
  f_equal. apply IH. intros; apply HP; by right.
Qed.

Lemma filter_none {A} (P : A → Prop) `{!∀ x, Decision (P x)} (l : list A) :
  (∀ x, x ∈ l → ¬ P x) → filter P l = [].
Proof.
  induction l as [|x l IH]; intros HP; [done|].
  rewrite filter_cons_False by (apply HP; left).
  apply IH. intros; apply HP; by right.
Qed.

(** ** Threshold filter *)

Section threshold_filter_props.
Context {vec uvec : Type}.
Implicit Types (df : list transaction_row).
Implicit Types (image text price transaction : table vec).
Implicit Types (df_feature : list (string * uvec)).

Lemma value_counts_lookup col k :
  value_counts col !! k =
    if decide (k ∈ col) then Some (length (filter (k =.) col)) else None.
Proof.
  induction col as [|x col IH].
  - rewrite decide_False by apply not_elem_of_nil. apply lookup_empty.
  - cbn [value_counts foldr]. fold (value_counts col).
    rewrite lookup_insert, filter_cons.
    destruct (decide (x = k)) as [->|Hne].
    + rewrite IH, (decide_True (P := k ∈ k :: col)) by left.
      rewrite (decide_True (P := k = k)) by done.
      case_decide as Hin; simpl; [done|].
      destruct (filter (eq k) col) as [|y ?] eqn:Hf; [done|].
      assert (y ∈ filter (eq k) col) as [-> ?]%list_elem_of_filter
        by (rewrite Hf; left).
      done.
    + rewrite IH, (decide_False (P := k = x)) by done.
      apply decide_ext. rewrite elem_of_cons. intuition congruence.
Qed.

Lemma filter_Buyer_fmap u df :
  length (filter (u =.) (Buyer <$> df)) = rows_of_buyer u df.
Proof.
  unfold rows_of_buyer. induction df as [|r df IH]; [done|].
  rewrite fmap_cons, !filter_cons.
  destruct (decide (u = Buyer r)), (decide (Buyer r = u)); simpl; congruence.
Qed.

(** The USER_CUT selection keeps exactly the rows whose buyer has at
    least [CUT] rows in the frame the cut is applied to. *)
Lemma user_cut_filter CUT df :
  user_cut CUT df = filter (λ r, CUT ≤ rows_of_buyer (Buyer r) df) df.
Proof.
  unfold user_cut. apply filter_ext_elem.
  intros r Hr. rewrite list_elem_of_fmap. split.
  - intros [[k n] [-> Hkn]]. simpl.
    apply elem_of_map_to_list, map_lookup_filter_Some in Hkn as [Hkn Hn].
    rewrite value_counts_lookup in Hkn. case_decide; [|done].
    simplify_eq. simpl in Hn. by rewrite <- filter_Buyer_fmap.
  - intros Hn. exists (Buyer r, rows_of_buyer (Buyer r) df). split; [done|].
    apply elem_of_map_to_list, map_lookup_filter_Some. split; [|done].
    rewrite value_counts_lookup, decide_True, filter_Buyer_fmap; [done|].
    apply list_elem_of_fmap. eauto.
Qed.

Lemma elem_of_indices k image text price transaction :
  k ∈ indices image text price transaction ↔
  k ∈ index image ∧ k ∈ index text ∧ k ∈ index price ∧ k ∈ index transaction.
Proof. unfold indices. rewrite !elem_of_intersection, !elem_of_list_to_set. tauto. Qed.

Lemma elem_of_feature_filter r df image text price transaction df_feature :
  r ∈ feature_filter df image text price transaction df_feature ↔
  r ∈ df ∧ Token_ID r ∈ indices image text price transaction
    ∧ Buyer r ∈ df_feature.*1.
Proof. unfold feature_filter. rewrite !list_elem_of_filter. tauto. Qed.
End threshold_filter_props.

(** C8.  The threshold filter is the selection, on the feature-eligible
    rows, of the buyers with at least CUT feature-eligible rows: every
    retained row has its item in all four item-feature tables and its
    buyer in the user-feature table, and the count compared with CUT is
    taken after the feature-presence filter.  A buyer whose raw count
    meets CUT can therefore be dropped (second part, CUT = 2). *)
Theorem threshold_filter_counts_eligible_rows :
  (∀ (vec uvec : Type) CUT df (image text price transaction : table vec)
     (df_feature : list (string * uvec)),
     let eligible := feature_filter df image text price transaction df_feature in
     threshold_filter CUT df image text price transaction df_feature
       = filter (λ r, CUT ≤ rows_of_buyer (Buyer r) eligible) eligible
     ∧ ∀ r, r ∈ threshold_filter CUT df image text price transaction df_feature →
         r ∈ df
         ∧ Token_ID r ∈ index image ∧ Token_ID r ∈ index text
         ∧ Token_ID r ∈ index price ∧ Token_ID r ∈ index transaction
         ∧ Buyer r ∈ df_feature.*1
         ∧ CUT ≤ rows_of_buyer (Buyer r) eligible)
  ∧ (let df := [TransactionRow "A" 1 "1 ETH ($10)"; TransactionRow "A" 2 "1 ETH ($8)"] in
     let full : table unit := [(1, ()); (2, ())]%Z in
     let image : table unit := [(1, ())]%Z in
     2 ≤ rows_of_buyer "A" df
     ∧ threshold_filter 2 df image full full full [("A", ())] = []).
Proof.
  split.
  - intros vec uvec CUT df image text price transaction df_feature eligible.
    unfold threshold_filter. fold eligible. rewrite user_cut_filter.
    split; [done|]. intros r [Hn Hr]%list_elem_of_filter.
    apply elem_of_feature_filter in Hr as (? & Hi & ?).
    apply elem_of_indices in Hi. tauto.
  - by vm_compute.
Qed.

(** ** Label generator *)

Lemma next_price_Some tok rest q :
  next_price tok rest = Some q ↔
  ∃ j, rest !! j = Some (tok, q)
       ∧ ∀ k t p, k < j → rest !! k = Some (t, p) → t ≠ tok.
Proof.
  induction rest as [|[t p] rest IH]; simpl.
  - split; [done|]. by intros (j & Hj & _).
  - case_decide as Ht.
    + subst t. split.
      * intros [= ->]. exists 0. split; [done|]. intros; lia.
      * intros ([|j] & Hj & Hk); [by simplify_eq/=|].
        by destruct (Hk 0 tok p); [lia|..].
    + rewrite IH. split.
      * intros (j & Hj & Hk). exists (S j). split; [done|].
        intros [|k] t' p' Hlt Hl; simplify_eq/=; [done|].
        eapply Hk; [|done]. lia.
      * intros ([|j] & Hj & Hk); [by simplify_eq/=|].
        exists j. split; [done|]. intros k t' p' Hlt Hl.
        apply (Hk (S k) t' p'); [lia|done].
Qed.

Lemma next_price_None tok rest :
  next_price tok rest = None ↔ ∀ j t p, rest !! j = Some (t, p) → t ≠ tok.
Proof.
  induction rest as [|[t p] rest IH]; simpl.
  - split; [|done]. by intros _ j t p.
  - case_decide as Ht.
    + split; [done|]. intros Hall. by destruct (Hall 0 t p).
    + rewrite IH. split.
      * intros Hall [|j] t' p' Hl; simplify_eq/=; [done|]. by eapply Hall.
      * intros Hall j t' p' Hl. by apply (Hall (S j) t' p').
Qed.

Lemma groupby_diff_m1_lookup rows i t p :
  rows !! i = Some (t, p) →
  groupby_diff_m1 rows !! i
    = Some ((λ q, p - q)%Z <$> next_price t (drop (S i) rows)).
Proof.
  revert i. induction rows as [|[t' p'] rows IH]; intros [|i] Hi;
    simplify_eq/=; [done|]. by apply IH.
Qed.

Lemma groupby_diff_m1_length rows : length (groupby_diff_m1 rows) = length rows.
Proof. induction rows as [|[t p] rows IH]; simpl; by f_equal. Qed.

Lemma Price_diff_length rows : length (Price_diff rows) = length rows.
Proof. unfold Price_diff. by rewrite !length_fmap, groupby_diff_m1_length. Qed.

(** The label of a row, read off the price of the next row of its
    group. *)
Lemma Price_diff_lookup rows i t p :
  rows !! i = Some (t, p) →
  Price_diff rows !! i =
    Some (match next_price t (drop (S i) rows) with
          | Some q => if decide (p < q)%Z then 1 else 0
          | None => 0
          end).
Proof.
  intros Hi. unfold Price_diff.
  rewrite !list_lookup_fmap, (groupby_diff_m1_lookup _ _ _ _ Hi). simpl.
  f_equal. destruct (next_price t _) as [q|]; simpl; [|done].
  unfold threshold_label. repeat case_decide; lia.
Qed.

(** The columns of the frame built by [label_generator]. *)
Lemma labeled_rows_columns (df : list transaction_row) prices labels :
  length prices = length df → length labels = length df →
  let rows := zip_with (λ r pl, LabeledRow (Buyer r) (Token_ID r) pl.1 pl.2)
                df (zip prices labels) in
  l_Buyer <$> rows = Buyer <$> df
  ∧ l_Token_ID <$> rows = Token_ID <$> df
  ∧ l_Price_diff <$> rows = labels
  ∧ (λ r, (l_Token_ID r, l_Price r)) <$> rows = zip (Token_ID <$> df) prices.
Proof.
  revert prices labels.
  induction df as [|r df IH]; intros [|p prices] [|l labels] ??;
    simplify_eq/=; [done|].
  destruct (IH prices labels) as (-> & -> & -> & ->); done.
Qed.

Lemma label_generator_Some df rows :
  label_generator df = Some rows →
  l_Buyer <$> rows = Buyer <$> filter (λ r, contains_dollar (Price r) = true) df
  ∧ l_Token_ID <$> rows
      = Token_ID <$> filter (λ r, contains_dollar (Price r) = true) df
  ∧ l_Price_diff <$> rows
      = Price_diff ((λ r, (l_Token_ID r, l_Price r)) <$> rows).
Proof.
  unfold label_generator.
  set (df' := filter _ df). intros Hrows.
  destruct (mapM parse_price (Price <$> df')) as [prices|] eqn:Hp;
    simplify_eq/=.
  apply mapM_Some_1, Forall2_length in Hp. rewrite length_fmap in Hp.
  destruct (labeled_rows_columns df' prices
              (Price_diff (zip (Token_ID <$> df') prices)))
    as (HB & HT & HL & HZ); [done|..].
  { by rewrite Price_diff_length, length_zip, length_fmap, Hp, Nat.min_id. }
  by rewrite HB, HT, HL, HZ.
Qed.

(** C1, as the code has it.  In the frame produced by the label
    generator, a row whose item has a later row gets label 1 exactly
    when the price of the next row of that item (positional order) is
    strictly greater than its own price, and 0 otherwise; a row whose
    item has no later row gets label 0. *)
Theorem label_one_iff_next_price_higher df rows i r :
  label_generator df = Some rows →
  rows !! i = Some r →
  (∀ j r', i < j → rows !! j = Some r' → l_Token_ID r' = l_Token_ID r →
     (∀ k r'', i < k < j → rows !! k = Some r'' →
               l_Token_ID r'' ≠ l_Token_ID r) →
     l_Price_diff r = if decide (l_Price r < l_Price r')%Z then 1 else 0)
  ∧ ((∀ j r', i < j → rows !! j = Some r' → l_Token_ID r' ≠ l_Token_ID r) →
     l_Price_diff r = 0).
Proof.
  intros (_ & _ & Hlab)%label_generator_Some Hi.
  set (pairs := (λ r, (l_Token_ID r, l_Price r)) <$> rows) in *.
  assert (pairs !! i = Some (l_Token_ID r, l_Price r)) as Hpi
    by (unfold pairs; by rewrite list_lookup_fmap, Hi).
  assert (Some (l_Price_diff r) = Price_diff pairs !! i) as Hl
    by (by rewrite <- Hlab, list_lookup_fmap, Hi).
  rewrite (Price_diff_lookup _ _ _ _ Hpi) in Hl. injection Hl as ->.
  split.
  - intros j r' Hij Hj Htok Hbetween.
    assert (next_price (l_Token_ID r) (drop (S i) pairs) = Some (l_Price r'))
      as ->; [|done].
    apply next_price_Some. exists (j - S i). split.
    + rewrite lookup_drop. replace (S i + (j - S i)) with j by lia.
      unfold pairs. by rewrite list_lookup_fmap, Hj, <- Htok.
    + intros k t p Hk. rewrite lookup_drop. unfold pairs.
      rewrite list_lookup_fmap.
      destruct (rows !! (S i + k)) as [r''|] eqn:Hr''; [|done].
      intros [= <- <-]. apply (Hbetween (S i + k)); [lia|done].
  - intros Hnone.
    assert (next_price (l_Token_ID r) (drop (S i) pairs) = None) as ->; [|done].
    apply next_price_None. intros j t p. rewrite lookup_drop. unfold pairs.
    rewrite list_lookup_fmap.
    destruct (rows !! (S i + j)) as [r'|] eqn:Hr'; [|done].
    intros [= <- <-]. apply (Hnone (S i + j)); [lia|done].
Qed.

Lemma label_one_iff_next_price_higher_witness :
  (∀ j r', 0 < j →
     [LabeledRow "A" 1 10 0; LabeledRow "A" 1 8 0] !! j = Some r' →
     l_Token_ID r' = 1%Z →
     (∀ k r'', 0 < k < j →
        [LabeledRow "A" 1 10 0; LabeledRow "A" 1 8 0] !! k = Some r'' →
        l_Token_ID r'' ≠ 1%Z) →
     0 = if decide (10 < l_Price r')%Z then 1 else 0)
  ∧ ((∀ j r', 0 < j →
        [LabeledRow "A" 1 10 0; LabeledRow "A" 1 8 0] !! j = Some r' →
        l_Token_ID r' ≠ 1%Z) →
     0 = 0).
Proof.
  apply (label_one_iff_next_price_higher frame_10_then_8
           [LabeledRow "A" 1 10 0; LabeledRow "A" 1 8 0] 0
           (LabeledRow "A" 1 10 0)); reflexivity.
Defined.

(** C1 as claimed fails on the scenario: the price drops from $10 to
    $8 and the first row is labelled 0, not 1. *)
Lemma price_drop_10_to_8_labelled_zero :
  label_generator frame_10_then_8
    = Some [LabeledRow "A" 1 10 0; LabeledRow "A" 1 8 0]
  ∧ ¬ ∃ rows, label_generator frame_10_then_8 = Some rows
              ∧ l_Price_diff <$> rows = [1; 0].
Proof. split; [reflexivity|]. by intros (rows & [= <-] & ?). Qed.

(** ** Price parsing *)

Lemma split_space_no_space t : has_space t = false → split_space t = [t].
Proof.
  induction t as [|c t IH]; simpl; [done|].
  destruct (Ascii.eqb c " "); [done|]. intros Ht. by rewrite IH.
Qed.

Lemma split_space_app t rest :
  has_space t = false →
  split_space (t ++ " " ++ rest)%string = t :: split_space rest.
Proof.
  induction t as [|c t IH]; simpl; [done|].
  destruct (Ascii.eqb c " "); [done|]. intros Ht. by rewrite IH.
Qed.

Lemma substring_0_app amount s :
  substring 0 (String.length amount) (amount ++ s)%string = amount.
Proof.
  induction amount as [|c amount IH]; simpl; [by destruct s|]. by rewrite IH.
Qed.

Lemma length_string_app (s1 s2 : string) :
  String.length (s1 ++ s2)%string = String.length s1 + String.length s2.
Proof. induction s1 as [|c s1 IH]; simpl; [done|]. by rewrite IH. Qed.

(** [t[2:-1]] strips two characters in front and one at the end. *)
Lemma slice_2_m1_strip c1 c2 amount c3 :
  slice_2_m1 (String c1 (String c2 (amount ++ String c3 ""))) = amount.
Proof.
  unfold slice_2_m1. cbn [String.length substring].
  rewrite length_string_app. cbn [String.length].
  replace (S (S (String.length amount + 1)) - 3) with (String.length amount)
    by lia.
  apply substring_0_app.
Qed.

(** C5, as the code has it.  The text converted to a number is the
    third space-separated piece of the 'Price' string without its first
    two and its last character and without any comma or point.  So a
    pair of prices whose decimals differ in length can be ordered one
    way as decimal numerals and the other way as parsed values: $30
    followed by $2.50 is a fall of the price, the parsed values 30 and
    250 rise, and the first row is labelled 1. *)
Theorem price_text_third_piece_stripped :
  (∀ a b c1 c2 amount c3 rest,
     has_space a = false → has_space b = false →
     has_space (String c1 (String c2 (amount ++ String c3 ""))) = false →
     let t := String c1 (String c2 (amount ++ String c3 "")) in
     let stripped := remove_char "." (remove_char "," amount) in
     price_text (a ++ " " ++ b ++ " " ++ t)%string = Some stripped
     ∧ price_text (a ++ " " ++ b ++ " " ++ t ++ " " ++ rest)%string = Some stripped
     ∧ parse_price (a ++ " " ++ b ++ " " ++ t)%string = to_float stripped)
  ∧ (let x1 := "0.1 ETH ($30)" in
     let x2 := "0.1 ETH ($2.50)" in
     ∃ q1 q2 p1 p2,
       true_price x1 = Some q1 ∧ true_price x2 = Some q2 ∧ (q2 < q1)%Q
       ∧ parse_price x1 = Some p1 ∧ parse_price x2 = Some p2 ∧ (p1 < p2)%Z
       ∧ label_generator [TransactionRow "A" 1 x1; TransactionRow "A" 1 x2]
           = Some [LabeledRow "A" 1 p1 1; LabeledRow "A" 1 p2 0]).
Proof.
  split.
  - intros a b c1 c2 amount c3 rest Ha Hb Ht t stripped.
    assert (price_text (a ++ " " ++ b ++ " " ++ t)%string = Some stripped) as H1.
    { unfold price_text.
      rewrite (split_space_app a), (split_space_app b), split_space_no_space
        by done.
      simpl. unfold t. by rewrite slice_2_m1_strip. }
    split_and!; [done| |by unfold parse_price; rewrite H1].
    unfold price_text.
    rewrite (split_space_app a), (split_space_app b), (split_space_app t)
      by done.
    simpl. unfold t. by rewrite slice_2_m1_strip.
  - exists (30 # 1)%Q, (250 # 100)%Q, 30%Z, 250%Z. by vm_compute.
Qed.

Lemma price_text_third_piece_stripped_witness :
  price_text "0.1 ETH ($1,234.56)" = Some "123456"
  ∧ price_text "0.1 ETH ($1,234.56) paid" = Some "123456"
  ∧ parse_price "0.1 ETH ($1,234.56)" = to_float "123456".
Proof.
  apply (proj1 price_text_third_piece_stripped "0.1" "ETH" "("%char "$"%char
           "1,234.56" ")"%char "paid"); reflexivity.
Defined.

(** C5 as claimed fails on its own example: for $30.00 followed by
    $2.50 the parsed values are 3000 and 250, which fall as the decimal
    prices do, and the first row is labelled 0. *)
Lemma parsed_30_00_then_2_50_fall :
  parse_price "0.1 ETH ($30.00)" = Some 3000%Z
  ∧ parse_price "0.1 ETH ($2.50)" = Some 250%Z
  ∧ ¬ (3000 < 250)%Z
  ∧ label_generator [TransactionRow "A" 1 "0.1 ETH ($30.00)";
                     TransactionRow "A" 1 "0.1 ETH ($2.50)"]
      = Some [LabeledRow "A" 1 3000 0; LabeledRow "A" 1 250 0].
Proof. split_and!; [reflexivity..|lia|reflexivity]. Qed.

(** ** Index mapper *)

Section np_unique_props.
Context `{Countable A} (R : relation A) `{!RelDecision R}.
Context `{!PartialOrder R, !Total R}.

Lemma drop_repeats_from_spec prev ar :
  StronglySorted R (prev :: ar) →
  StronglySorted (strict R) (prev :: drop_repeats_from prev ar)
  ∧ ∀ x, x ∈ prev :: drop_repeats_from prev ar ↔ x ∈ prev :: ar.
Proof.
  revert prev. induction ar as [|x ar IH]; intros prev Hs; simpl.
  { split; [|done]. repeat constructor. }
  apply StronglySorted_inv in Hs as [Hs Hprev].
  apply Forall_cons in Hprev as [Hpx Hprev].
  case_decide as Hx.
  - subst x. destruct (IH prev Hs) as [IH1 IH2]. split; [done|].
    intros y. rewrite IH2, !elem_of_cons. tauto.
  - destruct (IH x Hs) as [IH1 IH2]. split.
    + constructor; [done|]. apply Forall_forall. intros y Hy.
      apply IH2 in Hy.
      assert (R x y) as Hxy.
      { apply elem_of_cons in Hy as [->|Hy]; [done|].
        apply StronglySorted_inv in Hs as [_ Hs].
        by eapply Forall_forall in Hs. }
      split; [by etrans|]. intros Hyp. destruct Hx.
      apply (anti_symm R); [by etrans|done].
    + intros y. rewrite elem_of_cons, IH2, !elem_of_cons. tauto.
Qed.

Lemma np_unique_sorted ar : StronglySorted (strict R) (np_unique R ar).
Proof.
  unfold np_unique.
  pose proof (StronglySorted_merge_sort R ar) as Hs.
  destruct (merge_sort R ar) as [|x l]; [constructor|].
  by apply drop_repeats_from_spec.
Qed.

Lemma elem_of_np_unique x ar : x ∈ np_unique R ar ↔ x ∈ ar.
Proof.
  unfold np_unique. rewrite <- (merge_sort_Permutation R ar) at 2.
  pose proof (StronglySorted_merge_sort R ar) as Hs.
  destruct (merge_sort R ar) as [|y l]; [done|].
  by apply drop_repeats_from_spec.
Qed.

Lemma strictly_sorted_NoDup (l : list A) : StronglySorted (strict R) l → NoDup l.
Proof.
  induction 1 as [|x l Hs IH Hx]; constructor; [|done].
  intros Hin. eapply Forall_forall in Hx; [|done]. by destruct Hx.
Qed.

Lemma np_unique_NoDup ar : NoDup (np_unique R ar).
Proof. apply strictly_sorted_NoDup, np_unique_sorted. Qed.

Lemma np_unique_length ar : length (np_unique R ar) = len_set ar.
Proof.
  unfold len_set.
  rewrite <- (size_list_to_set (C := gset A) (np_unique R ar))
    by apply np_unique_NoDup.
  f_equal. apply set_eq. intros x.
  by rewrite !elem_of_list_to_set, elem_of_np_unique.
Qed.

(** In a strictly sorted list the order of positions is the order of
    the entries. *)
Lemma strictly_sorted_lookup_lt (l : list A) i j x y :
  StronglySorted (strict R) l → l !! i = Some x → l !! j = Some y →
  i < j ↔ strict R x y.
Proof.
  intros Hs Hi Hj.
  assert (∀ i j x y, l !! i = Some x → l !! j = Some y → i < j → strict R x y)
    as Hlt.
  { clear i j x y Hi Hj. induction Hs as [|z l Hs IH Hz]; [done|].
    intros [|i] [|j] x y Hi Hj Hij; simplify_eq/=; try lia.
    - eapply Forall_forall in Hz; [done|]. by eapply list_elem_of_lookup_2.
    - eapply IH; [done..|lia]. }
  split; [by apply Hlt|]. intros [Hxy Hyx].
  destruct (Nat.lt_trichotomy i j) as [?|[->|Hji]]; [done|..].
  - simplify_eq. by destruct Hyx.
  - destruct (Hlt _ _ _ _ Hj Hi Hji) as [? ?]. done.
Qed.
End np_unique_props.

Lemma mapping_loop_prefix `{Countable K} (uniq : list K) offset n k v :
  NoDup uniq → n ≤ length uniq →
  foldl (λ m i, match uniq !! i with
                | Some k => <[k := i + offset]> m
                | None => m
                end) (∅ : gmap K nat) (seq 0 n) !! k = Some v
  ↔ ∃ i, i < n ∧ uniq !! i = Some k ∧ v = i + offset.
Proof.
  intros Hnd. induction n as [|n IH]; intros Hn.
  { simpl. rewrite lookup_empty. split; [done|]. intros (i & ? & _); lia. }
  rewrite seq_S, foldl_snoc. simpl.
  destruct (lookup_lt_is_Some_2 uniq n) as [kn Hkn]; [lia|].
  rewrite Hkn, lookup_insert. case_decide as Hk.
  - subst kn. split.
    + intros [= <-]. exists n. split; [lia|done].
    + intros (i & _ & Hi & ->).
      by rewrite (NoDup_lookup _ _ _ _ Hnd Hi Hkn).
  - rewrite IH by lia. split.
    + intros (i & ? & ? & ?). exists i. split; [lia|done].
    + intros (i & Hi & Hik & ->). exists i. split; [|done].
      destruct (decide (i = n)) as [->|]; [congruence|lia].
Qed.

(** The dictionary built by the loop sends the entry at position [i]
    to [i + offset]. *)
Lemma mapping_loop_lookup `{Countable K} (uniq : list K) offset k v :
  NoDup uniq →
  mapping_loop uniq offset !! k = Some v
  ↔ ∃ i, uniq !! i = Some k ∧ v = i + offset.
Proof.
  intros Hnd. unfold mapping_loop. rewrite mapping_loop_prefix by done.
  split.
  - intros (i & _ & Hi & ->). by exists i.
  - intros (i & Hi & ->). exists i. split; [by eapply lookup_lt_Some|done].
Qed.

(** *** The order of strings *)

Lemma ascii_compare_refl c : Ascii.compare c c = Eq.
Proof. apply N.compare_refl. Qed.

Lemma string_compare_refl s : String.compare s s = Eq.
Proof. induction s as [|c s IH]; simpl; [done|]. by rewrite ascii_compare_refl. Qed.

Lemma string_compare_trans_le s1 s2 s3 :
  String.compare s1 s2 ≠ Gt → String.compare s2 s3 ≠ Gt →
  String.compare s1 s3 ≠ Gt.
Proof.
  revert s2 s3. induction s1 as [|a s1 IH]; intros [|b s2] [|c s3]; simpl;
    try done.
  destruct (Ascii.compare a b) eqn:Hab; [|clear IH|done];
    (destruct (Ascii.compare b c) eqn:Hbc; [| |done]).
  - apply Ascii.compare_eq_iff in Hab as ->. rewrite Hbc. apply IH.
  - apply Ascii.compare_eq_iff in Hab as ->. by rewrite Hbc.
  - apply Ascii.compare_eq_iff in Hbc as <-. by rewrite Hab.
  - unfold Ascii.compare in *.
    rewrite N.compare_lt_iff in Hab, Hbc.
    assert (N_of_ascii a < N_of_ascii c)%N as Hac by lia.
    apply N.compare_lt_iff in Hac. by rewrite Hac.
Qed.

Global Instance str_le_po : PartialOrder str_le.
Proof.
  unfold str_le, String.leb. split; [split|].
  - intros s. by rewrite string_compare_refl.
  - intros s1 s2 s3 H12 H23.
    pose proof (string_compare_trans_le s1 s2 s3) as Htr.
    destruct (String.compare s1 s2), (String.compare s2 s3),
      (String.compare s1 s3); try done; by destruct Htr.
  - intros s1 s2. apply String.leb_antisym.
Qed.

Global Instance str_le_total : Total str_le.
Proof. intros s1 s2. apply String.leb_total. Qed.

Lemma strict_str_le s1 s2 : strict str_le s1 s2 ↔ String.ltb s1 s2 = true.
Proof.
  unfold strict, str_le, String.leb, String.ltb.
  rewrite (String.compare_antisym s2 s1).
  destruct (String.compare s1 s2); simpl; intuition congruence.
Qed.

Lemma strict_Z_le (z1 z2 : Z) : strict Z.le z1 z2 ↔ (z1 < z2)%Z.
Proof. unfold strict. lia. Qed.

Section index_mapper.
Context `{Countable K} (R : relation K) `{!RelDecision R}.
Context `{!PartialOrder R, !Total R}.
Implicit Types (col : list K).

Lemma mapping_unique_lookup col offset k v :
  mapping_loop (np_unique R col) offset !! k = Some v
  ↔ ∃ i, np_unique R col !! i = Some k ∧ v = i + offset.
Proof. apply mapping_loop_lookup, np_unique_NoDup; apply _. Qed.

Lemma mapping_unique_dom col offset k :
  is_Some (mapping_loop (np_unique R col) offset !! k) ↔ k ∈ col.
Proof.
  rewrite <- (elem_of_np_unique R), list_elem_of_lookup. unfold is_Some.
  setoid_rewrite mapping_unique_lookup. split.
  - intros (v & i & Hi & _). by exists i.
  - intros [i Hi]. by exists (i + offset), i.
Qed.

Lemma mapping_unique_image col offset v :
  (∃ k, mapping_loop (np_unique R col) offset !! k = Some v)
  ↔ offset ≤ v < offset + len_set col.
Proof.
  rewrite <- (np_unique_length R). setoid_rewrite mapping_unique_lookup. split.
  - intros (k & i & Hi & ->). apply lookup_lt_Some in Hi. lia.
  - intros Hv. destruct (lookup_lt_is_Some_2 (np_unique R col) (v - offset))
      as [k Hk]; [lia|].
    exists k, (v - offset). split; [done|lia].
Qed.

Lemma mapping_unique_inj col offset k1 k2 v :
  mapping_loop (np_unique R col) offset !! k1 = Some v →
  mapping_loop (np_unique R col) offset !! k2 = Some v → k1 = k2.
Proof.
  rewrite !mapping_unique_lookup. intros (i & Hi & ->) (j & Hj & Hij).
  assert (i = j) as -> by lia. congruence.
Qed.

Lemma mapping_unique_ascending col offset k1 k2 v1 v2 :
  mapping_loop (np_unique R col) offset !! k1 = Some v1 →
  mapping_loop (np_unique R col) offset !! k2 = Some v2 →
  strict R k1 k2 ↔ v1 < v2.
Proof.
  rewrite !mapping_unique_lookup. intros (i & Hi & ->) (j & Hj & ->).
  rewrite <- (strictly_sorted_lookup_lt R _ i j k1 k2
                (np_unique_sorted R col) Hi Hj). lia.
Qed.
End index_mapper.

(** C7.  [mapping_i] is defined exactly on the item IDs and
    [mapping_u] exactly on the user IDs; the values of [mapping_i] are
    exactly [0, num_items) and those of [mapping_u] exactly
    [num_items, num_items + num_users); both are injective and ascending
    in the ID, so each is a bijection onto its range, and the two ranges
    are disjoint.  On items {5,6,8} and users {A,B} the dictionaries are
    {5:0, 6:1, 8:2} and {A:3, B:4}. *)
Theorem index_mapper_dense_disjoint_ranges :
  (∀ (user : list string) (item : list Z),
     let num_items := len_set item in
     let num_users := len_set user in
     (∀ k, is_Some (mapping_i item !! k) ↔ k ∈ item)
     ∧ (∀ k, is_Some (mapping_u user item !! k) ↔ k ∈ user)
     ∧ (∀ v, (∃ k, mapping_i item !! k = Some v) ↔ v < num_items)
     ∧ (∀ v, (∃ k, mapping_u user item !! k = Some v)
             ↔ num_items ≤ v < num_items + num_users)
     ∧ (∀ k1 k2 v, mapping_i item !! k1 = Some v →
                   mapping_i item !! k2 = Some v → k1 = k2)
     ∧ (∀ k1 k2 v, mapping_u user item !! k1 = Some v →
                   mapping_u user item !! k2 = Some v → k1 = k2)
     ∧ (∀ k1 k2 v1 v2, mapping_i item !! k1 = Some v1 →
                       mapping_i item !! k2 = Some v2 →
                       (k1 < k2)%Z ↔ v1 < v2)
     ∧ (∀ k1 k2 v1 v2, mapping_u user item !! k1 = Some v1 →
                       mapping_u user item !! k2 = Some v2 →
                       String.ltb k1 k2 = true ↔ v1 < v2)
     ∧ (∀ ki ku vi vu, mapping_i item !! ki = Some vi →
                       mapping_u user item !! ku = Some vu → vi ≠ vu))
  ∧ mapping_i [5; 6; 8]%Z = <[5%Z := 0]> (<[6%Z := 1]> (<[8%Z := 2]> ∅))
  ∧ mapping_u ["A"; "B"] [5; 6; 8]%Z = <["A" := 3]> (<["B" := 4]> ∅).
Proof.
  split; [|split; by vm_compute].
  intros user item num_items num_users. unfold mapping_i, mapping_u.
  split_and!.
  - apply mapping_unique_dom; apply _.
  - apply mapping_unique_dom; apply _.
  - intros v. rewrite (mapping_unique_image Z.le). subst num_items. lia.
  - intros v. by rewrite (mapping_unique_image str_le).
  - apply mapping_unique_inj; apply _.
  - apply mapping_unique_inj; apply _.
  - intros k1 k2 v1 v2 H1 H2.
    rewrite <- (mapping_unique_ascending Z.le _ _ _ _ _ _ H1 H2).
    symmetry. apply strict_Z_le.
  - intros k1 k2 v1 v2 H1 H2.
    rewrite <- (mapping_unique_ascending str_le _ _ _ _ _ _ H1 H2).
    symmetry. apply strict_str_le.
  - intros ki ku vi vu Hi Hu.
    assert (vi < num_items)
      by (apply (mapping_unique_image Z.le item 0 vi); eauto).
    assert (num_items ≤ vu)
      by (apply (mapping_unique_image str_le user num_items vu); eauto).
    lia.
Qed.

(** ** Rows without a currency marker *)



(** ** Rows and positions *)

Lemma fmap_filter_comm {A B} (f : A → B) (Q : B → Prop)
    `{!∀ y, Decision (Q y)} (l : list A) :
  f <$> filter (λ x, Q (f x)) l = filter Q (f <$> l).
Proof.
  induction l as [|x l IH]; [done|].
  rewrite fmap_cons, !filter_cons. case_decide; by rewrite ?fmap_cons, IH.
Qed.

Lemma mapM_app {A B} (f : A → option B) (l1 l2 : list A) k1 k2 :
  mapM f l1 = Some k1 → mapM f l2 = Some k2 →
  mapM f (l1 ++ l2) = Some (k1 ++ k2).
Proof.
  rewrite !mapM_Some. apply Forall2_app.
Qed.

Lemma mapM_app_inv {A B} (f : A → option B) (l1 l2 : list A) k :
  mapM f (l1 ++ l2) = Some k →
  ∃ k1 k2, k = k1 ++ k2 ∧ mapM f l1 = Some k1 ∧ mapM f l2 = Some k2.
Proof.
  rewrite mapM_Some. intros (k1 & k2 & ? & ? & ->)%Forall2_app_inv_l.
  exists k1, k2. by rewrite !mapM_Some.
Qed.

(** Reading the same positions in another order gives the same rows in
    another order. *)
Lemma mapM_Permutation {A B} (f : A → option B) (l l' : list A) k :
  l ≡ₚ l' → mapM f l = Some k → ∃ k', mapM f l' = Some k' ∧ k ≡ₚ k'.
Proof.
  intros Hp. revert k. induction Hp as [|x l l' Hp IH|x y l|l l' l'' _ IH1 _ IH2];
    intros k Hk.
  - by exists k.
  - apply (mapM_app_inv f [x] l) in Hk as (k1 & k2 & -> & Hx & Hl).
    destruct (IH _ Hl) as (k2' & Hl' & Hk2).
    exists (k1 ++ k2'). split; [by apply (mapM_app f [x] l')|by f_equiv].
  - apply (mapM_app_inv f [y; x] l) in Hk as (k1 & k2 & -> & Hyx & Hl).
    apply (mapM_app_inv f [y] [x]) in Hyx as (ky & kx & -> & Hy & Hx).
    exists ((kx ++ ky) ++ k2). split.
    + apply (mapM_app f [x; y] l); [|done]. by apply (mapM_app f [x] [y]).
    + f_equiv. apply Permutation_app_comm.
  - destruct (IH1 _ Hk) as (k' & Hk' & ?).
    destruct (IH2 _ Hk') as (k'' & Hk'' & ?).
    exists k''. split; [done|by etrans].
Qed.

Lemma imap_pair_fst {A} (l : list A) : (imap pair l).*1 = seq 0 (length l).
Proof.
  rewrite fmap_imap, <- (list_fmap_id (seq 0 (length l))).
  by rewrite <- (imap_seq_0 l id).
Qed.

Lemma imap_pair_snd {A} (l : list A) : (imap pair l).*2 = l.
Proof.
  rewrite fmap_imap. rewrite (imap_ext _ (const id)) by done.
  by rewrite imap_const, list_fmap_id.
Qed.

Lemma elem_of_imap_pair {A} (l : list A) i x :
  (i, x) ∈ imap pair l ↔ l !! i = Some x.
Proof.
  rewrite elem_of_lookup_imap. split.
  - by intros (j & y & [= -> ->] & Hj).
  - intros Hi. by exists i, x.
Qed.

Lemma take_rows_Some {A} (arr : list A) idx rows :
  take_rows arr idx = Some rows ↔ Forall2 (λ i x, arr !! i = Some x) idx rows.
Proof. apply mapM_Some. Qed.

(** The rows of a selection of [imap pair arr] are the rows of [arr]
    at the positions of the selection. *)
Lemma take_rows_selection {A} (arr : list A) (sel : list (nat * A)) :
  (∀ ix, ix ∈ sel → ix ∈ imap pair arr) →
  take_rows arr sel.*1 = Some sel.*2.
Proof.
  intros Hsel. apply take_rows_Some, Forall2_fmap, Forall2_same_length_lookup_2;
    [done|].
  intros i [j x] [j' x'] Hi Hi'. simplify_eq/=.
  by apply elem_of_imap_pair, Hsel, list_elem_of_lookup_2 with i.
Qed.

Lemma take_rows_seq {A} (arr : list A) :
  take_rows arr (seq 0 (length arr)) = Some arr.
Proof.
  pose proof (take_rows_selection arr (imap pair arr)) as Hsel.
  rewrite imap_pair_fst, imap_pair_snd in Hsel. by apply Hsel.
Qed.

Lemma take_rows_lt {A} (arr : list A) idx rows :
  take_rows arr idx = Some rows → ∀ i, i ∈ idx → i < length arr.
Proof.
  intros Hrows%take_rows_Some i Hi.
  apply list_elem_of_lookup in Hi as [n Hn].
  destruct (Forall2_lookup_l _ _ _ _ _ Hrows Hn) as (x & _ & Hx).
  by eapply lookup_lt_Some.
Qed.

(** [np.delete] gives the rows at the positions that are not listed. *)
Lemma np_delete_take_rows {A} (arr : list A) idx :
  take_rows arr (filter (λ i, i ∉ idx) (seq 0 (length arr)))
    = Some (np_delete arr idx).
Proof.
  unfold np_delete. rewrite <- imap_pair_fst.
  rewrite <- (fmap_filter_comm fst (λ i, i ∉ idx)).
  apply take_rows_selection. by intros ix [_ ?]%list_elem_of_filter.
Qed.

(** The positions that are not listed, followed by the listed ones,
    are all the positions. *)
Lemma complement_Permutation (idx : list nat) n :
  NoDup idx → (∀ i, i ∈ idx → i < n) →
  filter (λ i, i ∉ idx) (seq 0 n) ++ idx ≡ₚ seq 0 n.
Proof.
  intros Hnd Hlt. apply NoDup_Permutation.
  - apply NoDup_app. split_and!; [apply NoDup_filter, NoDup_seq| |done].
    by intros i [? _]%list_elem_of_filter.
  - apply NoDup_seq.
  - intros i. rewrite elem_of_app, list_elem_of_filter, elem_of_seq.
    specialize (Hlt i). destruct (decide (i ∈ idx)); intuition lia.
Qed.

(** The rows that [np.delete] removes and the rows it keeps make up
    the array. *)
Lemma np_delete_Permutation {A} (arr : list A) idx held :
  NoDup idx → take_rows arr idx = Some held →
  np_delete arr idx ++ held ≡ₚ arr.
Proof.
  intros Hnd Hheld.
  pose proof (np_delete_take_rows arr idx) as Hkept.
  pose proof (mapM_app _ _ _ _ _ Hkept Hheld) as Hall.
  destruct (mapM_Permutation _ _ _ _
              (complement_Permutation idx (length arr) Hnd
                 (take_rows_lt arr idx held Hheld)) Hall)
    as (arr' & Harr' & ->).
  fold (take_rows arr (seq 0 (length arr))) in Harr'.
  rewrite take_rows_seq in Harr'. by simplify_eq.
Qed.

Lemma elem_of_np_where {A} (P : A → Prop) `{!∀ x, Decision (P x)} (l : list A) i :
  i ∈ np_where P l ↔ ∃ x, l !! i = Some x ∧ P x.
Proof.
  unfold np_where. rewrite list_elem_of_fmap. split.
  - intros ([j x] & -> & [HP Hx%elem_of_imap_pair]%list_elem_of_filter). eauto.
  - intros (x & Hx & HP). exists (i, x). split; [done|].
    apply list_elem_of_filter. split; [done|by apply elem_of_imap_pair].
Qed.

Lemma np_where_NoDup {A} (P : A → Prop) `{!∀ x, Decision (P x)} (l : list A) :
  NoDup (np_where P l).
Proof.
  assert (NoDup (imap pair l)) as Hnd.
  { apply (NoDup_fmap_1 fst). rewrite imap_pair_fst. apply NoDup_seq. }
  unfold np_where. apply NoDup_fmap_fst; [|by apply NoDup_filter].
  intros i x1 x2 [_ H1%elem_of_imap_pair]%list_elem_of_filter
    [_ H2%elem_of_imap_pair]%list_elem_of_filter.
  congruence.
Qed.

Lemma np_where_length {A} (P : A → Prop) `{!∀ x, Decision (P x)} (l : list A) :
  length (np_where P l) = length (filter P l).
Proof.
  unfold np_where. rewrite length_fmap.
  rewrite <- (imap_pair_snd l) at 2.
  by rewrite <- (fmap_filter_comm snd P), length_fmap.
Qed.

(** ** The holdout sample *)

Lemma times_0_4_agrees_spec fuel z k :
  times_0_4_agrees fuel z = true → (z ≤ k < z + Z.of_nat fuel)%Z →
  binary64_times_0_4 k = (4 * k / 10)%Z.
Proof.
  revert z. induction fuel as [|fuel IH]; intros z Hall Hk; [lia|].
  cbn [times_0_4_agrees] in Hall. apply andb_true_iff in Hall as [Hz Hall].
  destruct (decide (k = z)) as [->|]; [by apply Z.eqb_eq|].
  apply (IH (z + 1)%Z); [done|lia].
Qed.

(** On every array of fewer than 2^16 rows the float product of the
    notebook truncates to [num_sample]. *)
Lemma num_sample_binary64_agrees n :
  n < 2 ^ 16 → num_sample_binary64 n = num_sample n.
Proof.
  intros Hn. unfold num_sample_binary64, num_sample.
  rewrite (times_0_4_agrees_spec (2 ^ 16) 0).
  - rewrite <- (Nat2Z.id (n * 4 / 10)). f_equal.
    rewrite Nat2Z.inj_div, Nat2Z.inj_mul. f_equal. lia.
  - by vm_compute.
  - lia.
Qed.

Lemma num_sample_floor n :
  5 * num_sample n ≤ 2 * n < 5 * (num_sample n + 1).
Proof.
  unfold num_sample.
  pose proof (Nat.div_mod_eq (n * 4) 10).
  pose proof (Nat.mod_upper_bound (n * 4) 10). lia.
Qed.

Lemma num_sample_le n : num_sample n ≤ n.
Proof. pose proof (num_sample_floor n). lia. Qed.

Section split_props.
Context `{RandomState G}.
Implicit Types (inter : list inter_row) (g : G).

Lemma permutation_take_rows g (a : list nat) :
  ∃ full, take_rows a (permutation g (length a)).1 = Some full ∧ full ≡ₚ a.
Proof.
  destruct (mapM_Permutation (λ i, a !! i) (seq 0 (length a))
              (permutation g (length a)).1 a) as (full & Hfull & Hp).
  - symmetry. apply permutation_Permutation.
  - apply take_rows_seq.
  - by exists full.
Qed.

(** A sample without replacement: [size] entries that extend to a
    rearrangement of the population. *)
Lemma random_choice_Some g a size r g' :
  random_choice g a size = Some (r, g') →
  length r = size ∧ ∃ rest, r ++ rest ≡ₚ a.
Proof.
  unfold random_choice. case_decide as Hsize; [|done].
  destruct (permutation_take_rows g a) as (full & Hfull & Hperm).
  pose proof (permutation_Permutation g (length a)) as Hp.
  destruct (permutation g (length a)) as [p g1]. simpl in *.
  rewrite <- (take_drop size p) in Hfull.
  apply mapM_app_inv in Hfull as (r1 & rest & -> & Hr1 & _).
  unfold take_rows. rewrite Hr1. intros [= <- <-]. split; [|by exists rest].
  apply mapM_Some_1, Forall2_length in Hr1. rewrite <- Hr1, length_take.
  apply Permutation_length in Hp. rewrite length_seq in Hp. lia.
Qed.

Lemma random_choice_is_Some g a size :
  size ≤ length a → is_Some (random_choice g a size).
Proof.
  intros Hsize. unfold random_choice. rewrite decide_True by done.
  destruct (permutation_take_rows g a) as (full & Hfull & _).
  destruct (permutation g (length a)) as [p g1]. simpl in *.
  rewrite <- (take_drop size p) in Hfull.
  apply mapM_app_inv in Hfull as (r1 & rest & -> & Hr1 & _).
  unfold take_rows. by rewrite Hr1.
Qed.

Lemma holdout_loop_Some inter users g acc idxs g' :
  holdout_loop inter users g acc = Some (idxs, g') →
  ∃ picks, idxs = acc ++ concat picks ∧ Forall2 (picked inter) users picks.
Proof.
  revert g acc. induction users as [|u users IH]; intros g acc; simpl.
  { intros [= <- <-]. exists []. by rewrite app_nil_r. }
  destruct (random_choice g _ _) as [[pick g1]|] eqn:Hpick; [|done]. simpl.
  intros (picks & -> & Hpicks)%IH.
  exists (pick :: picks). rewrite <- (assoc_L (++)). split; [done|].
  constructor; [|done].
  apply random_choice_Some in Hpick as [Hlen Hrest].
  split; [|done]. by rewrite Hlen, np_where_length.
Qed.

Lemma holdout_loop_is_Some inter users g acc :
  is_Some (holdout_loop inter users g acc).
Proof.
  revert g acc. induction users as [|u users IH]; intros g acc; simpl; [done|].
  destruct (random_choice_is_Some g (np_where (λ r, i_user r = u) inter)
              (num_sample (length (np_where (λ r, i_user r = u) inter))))
    as [[pick g1] ->]; [apply num_sample_le|].
  simpl. apply IH.
Qed.

Lemma picked_user_at inter u pick i :
  picked inter u pick → i ∈ pick → user_at inter i = Some u.
Proof.
  intros [_ [rest Hrest]] Hi.
  assert (i ∈ np_where (λ r, i_user r = u) inter) as Hw
    by (rewrite <- Hrest; apply elem_of_app; by left).
  apply elem_of_np_where in Hw as (r & Hr & <-).
  unfold user_at. by rewrite Hr.
Qed.

Lemma picked_NoDup inter u pick : picked inter u pick → NoDup pick.
Proof.
  intros [_ [rest Hrest]].
  pose proof (np_where_NoDup (λ r, i_user r = u) inter) as Hnd.
  rewrite <- Hrest in Hnd. by apply NoDup_app in Hnd as [? _].
Qed.

(** The rounds of distinct users pick distinct positions, each of a
    row of its user, and as many as [num_sample] says. *)
Lemma picks_spec inter users picks :
  NoDup users → Forall2 (picked inter) users picks →
  NoDup (concat picks)
  ∧ (∀ i, i ∈ concat picks → ∃ u, u ∈ users ∧ user_at inter i = Some u)
  ∧ (∀ u, length (filter (λ i, user_at inter i = Some u) (concat picks))
          = if decide (u ∈ users)
            then num_sample (length (filter (λ r, i_user r = u) inter))
            else 0).
Proof.
  intros Hnd Hpicks.
  induction Hpicks as [|u pick users picks Hpick Hpicks IH].
  { split_and!; [constructor|by intros i ?%not_elem_of_nil|].
    intros u. by rewrite decide_False by apply not_elem_of_nil. }
  apply NoDup_cons in Hnd as [Hu Hnd].
  destruct (IH Hnd) as (IH1 & IH2 & IH3). simpl. split_and!.
  - apply NoDup_app. split_and!; [by eapply picked_NoDup| |done].
    intros i Hi Hi'. apply IH2 in Hi' as (v & Hv & Hiv).
    rewrite (picked_user_at _ _ _ _ Hpick Hi) in Hiv. by simplify_eq.
  - intros i [Hi|Hi]%elem_of_app.
    + exists u. split; [left|by eapply picked_user_at].
    + destruct (IH2 _ Hi) as (v & ? & ?). exists v. split; [by right|done].
  - intros w. rewrite filter_app, length_app, IH3.
    destruct (decide (w = u)) as [->|Hwu].
    + rewrite filter_all by (intros; by eapply picked_user_at).
      rewrite (decide_True (P := u ∈ u :: users)) by left.
      rewrite (decide_False (P := u ∈ users)) by done.
      destruct Hpick as [-> _]. lia.
    + rewrite filter_none.
      * apply decide_ext. rewrite elem_of_cons. intuition congruence.
      * intros i Hi. rewrite (picked_user_at _ _ _ _ Hpick Hi). congruence.
Qed.

Lemma holdout_sample_Some inter g idxs g' :
  holdout_sample inter g = Some (idxs, g') →
  NoDup idxs
  ∧ (∀ i, i ∈ idxs → i < length inter)
  ∧ (∀ u, length (filter (λ i, user_at inter i = Some u) idxs)
          = num_sample (length (filter (λ r, i_user r = u) inter))).
Proof.
  intros (picks & -> & Hpicks)%holdout_loop_Some. simpl.
  destruct (picks_spec inter (np_unique Nat.le (i_user <$> inter)) picks)
    as (H1 & H2 & H3); [|done|].
  { apply (np_unique_NoDup Nat.le). }
  split_and!; [done|..].
  - intros i (u & _ & Hu)%H2. unfold user_at in Hu.
    destruct (inter !! i) eqn:Hi; [|done]. by eapply lookup_lt_Some.
  - intros u. rewrite H3. case_decide as Hu; [done|].
    rewrite (elem_of_np_unique Nat.le) in Hu.
    rewrite filter_none; [done|].
    intros r Hr <-. apply Hu, list_elem_of_fmap. eauto.
Qed.

(** Rows of a user none of whose positions is listed survive
    [np.delete]. *)
Lemma np_delete_keeps_user inter idxs u :
  (∀ i, i ∈ idxs → user_at inter i ≠ Some u) →
  filter (λ r, i_user r = u) (np_delete inter idxs)
    = filter (λ r, i_user r = u) inter.
Proof.
  intros Hidx. unfold np_delete.
  rewrite <- (imap_pair_snd inter) at 2.
  rewrite <- !(fmap_filter_comm snd (λ r, i_user r = u)). f_equal.
  rewrite list_filter_filter. apply filter_ext_elem.
  intros [i r] Hir%elem_of_imap_pair. simpl. split; [tauto|].
  intros Hu. split; [done|]. intros Hi%Hidx.
  unfold user_at in Hi. rewrite Hir in Hi. simpl in Hi. congruence.
Qed.
End split_props.

Section split_claims.
Context `{RandomState G}.
Implicit Types (inter : list inter_row) (g : G).

Lemma train_test_split_Some (arr : list nat) random_state tr te :
  train_test_split arr random_state = Some (tr, te) → tr ++ te ≡ₚ arr.
Proof.
  unfold train_test_split. case_decide as Hn; [done|].
  destruct (permutation_take_rows (seed random_state) arr)
    as (full & Hfull & Hperm).
  pose proof (permutation_Permutation (seed random_state) (length arr)) as Hp.
  apply Permutation_length in Hp. rewrite length_seq in Hp.
  set (p := (permutation (seed random_state) (length arr)).1) in *.
  rewrite (take_ge (drop _ p)) by (rewrite length_drop; lia).
  rewrite <- (take_drop ((length arr + 1) / 2) p) in Hfull.
  apply mapM_app_inv in Hfull as (te' & tr' & -> & Hte & Htr).
  unfold take_rows. rewrite Hte, Htr. intros [= <- <-].
  by rewrite <- Hperm, (comm (++)).
Qed.

(** [train_test_split] raises exactly when fewer than two positions
    were held out. *)
Lemma train_test_split_None (arr : list nat) random_state :
  train_test_split arr random_state = None ↔ length arr < 2.
Proof.
  unfold train_test_split.
  assert (length arr - (length arr + 1) / 2 = 0 ↔ length arr < 2) as Hn.
  { pose proof (Nat.div_mod_eq (length arr + 1) 2).
    pose proof (Nat.mod_upper_bound (length arr + 1) 2). lia. }
  case_decide as Hdec; [tauto|]. split; [|lia]. intros Hnone. exfalso.
  destruct (permutation_take_rows (seed random_state) arr)
    as (full & Hfull & _).
  set (p := (permutation (seed random_state) (length arr)).1) in *.
  rewrite <- (take_drop ((length arr + 1) / 2) p) in Hfull.
  apply mapM_app_inv in Hfull as (te' & tr' & -> & Hte & Htr).
  pose proof (permutation_Permutation (seed random_state) (length arr)) as Hp.
  apply Permutation_length in Hp. rewrite length_seq in Hp. fold p in Hp.
  rewrite (take_ge (drop _ p)) in Hnone by (rewrite length_drop; lia).
  unfold take_rows in Hnone. by rewrite Hte, Htr in Hnone.
Qed.

(** The parts of a completed split. *)
Lemma data_split_Some inter g s :
  data_split inter g = Some s →
  ∃ g', holdout_sample inter g = Some (random_idx_list s, g')
        ∧ train s = np_delete inter (random_idx_list s)
        ∧ train_idx_list s
            = list_to_set (seq 0 (length inter))
                ∖ list_to_set (random_idx_list s)
        ∧ train_test_split (random_idx_list s) 42
            = Some (valid_idx_list s, test_idx_list s)
        ∧ take_rows inter (valid_idx_list s) = Some (valid s)
        ∧ take_rows inter (test_idx_list s) = Some (test s).
Proof.
  unfold data_split. intros Hs.
  destruct (holdout_sample inter g) as [[idxs g']|]; [|done]. simpl in Hs.
  destruct (train_test_split idxs 42) as [[v t]|] eqn:Hvt; [|done].
  simpl in Hs.
  destruct (take_rows inter v) as [rv|] eqn:Hv; [|done]. simpl in Hs.
  destruct (take_rows inter t) as [rt|] eqn:Ht; [|done]. simpl in Hs.
  injection Hs as <-. simpl. by exists g'.
Qed.

(** The three arrays of a completed split hold the rows of [inter]. *)
Lemma data_split_Permutation inter g s :
  data_split inter g = Some s → train s ++ valid s ++ test s ≡ₚ inter.
Proof.
  intros (g' & Hloop & Htrain & _ & Hvt & Hv & Ht)%data_split_Some.
  apply holdout_sample_Some in Hloop as (Hnd & _ & _).
  apply train_test_split_Some in Hvt.
  pose proof (mapM_app _ _ _ _ _ Hv Ht) as Hheld.
  destruct (mapM_Permutation _ _ _ _ Hvt Hheld) as (held & Hheld' & ->).
  rewrite Htrain. by apply np_delete_Permutation.
Qed.

Lemma take_rows_is_Some {A} (arr : list A) idx :
  (∀ i, i ∈ idx → i < length arr) → is_Some (take_rows arr idx).
Proof.
  intros Hlt. apply mapM_is_Some_2, Forall_forall. intros i Hi.
  by apply lookup_lt_is_Some_2, Hlt.
Qed.

(** Cell 12 completes as soon as some user has two rows held out. *)
Lemma data_split_is_Some inter g u :
  2 ≤ num_sample (length (filter (λ r, i_user r = u) inter)) →
  is_Some (data_split inter g).
Proof.
  intros Hu. unfold data_split.
  destruct (holdout_loop_is_Some inter
              (np_unique Nat.le (i_user <$> inter)) g []) as [[idxs g'] Hloop].
  fold (holdout_sample inter g) in Hloop. rewrite Hloop. simpl.
  apply holdout_sample_Some in Hloop as (_ & Hlt & Hcount).
  destruct (train_test_split idxs 42) as [[v t]|] eqn:Hvt.
  - simpl. apply train_test_split_Some in Hvt.
    destruct (take_rows_is_Some inter v) as [rv ->].
    { intros i Hi. apply Hlt. rewrite <- Hvt. apply elem_of_app. by left. }
    destruct (take_rows_is_Some inter t) as [rt ->]; [|done].
    intros i Hi. apply Hlt. rewrite <- Hvt. apply elem_of_app. by right.
  - apply train_test_split_None in Hvt.
    pose proof (length_filter (λ i, user_at inter i = Some u) idxs) as Hle.
    rewrite Hcount in Hle. lia.
Qed.
End split_claims.

(** ** Counting the permutations behind a choice *)

Lemma filter_ne_NoDup (l : list nat) x :
  NoDup l → x ∈ l →
  NoDup (filter (λ y, y ≠ x) l) ∧ S (length (filter (λ y, y ≠ x) l)) = length l.
Proof.
  intros Hnd Hx. split; [by apply NoDup_filter|].
  induction Hnd as [|y l Hy Hnd IH]; [by apply elem_of_nil in Hx|].
  rewrite filter_cons. destruct (decide (y = x)) as [->|Hne].
  - rewrite decide_False by (intros ?; done). simpl. f_equal.
    f_equal. apply filter_all. intros z Hz ->. done.
  - rewrite decide_True by done. simpl. f_equal. apply IH.
    apply elem_of_cons in Hx as [->|Hx]; done.
Qed.

Lemma length_bind_const {A B} (g : A → list B) (l : list A) c :
  (∀ x, x ∈ l → length (g x) = c) → length (l ≫= g) = length l * c.
Proof.
  induction l as [|x l IH]; intros Hg; [done|].
  rewrite bind_cons, length_app, IH, Hg; [simpl; lia|left|].
  intros; apply Hg; by right.
Qed.

Lemma rearrangements_length fuel l :
  NoDup l → length l = fuel → length (rearrangements fuel l) = fact fuel.
Proof.
  revert l. induction fuel as [|fuel IH]; intros l Hnd Hlen; [done|].
  cbn [rearrangements fact].
  rewrite (length_bind_const _ _ (fact fuel)); [rewrite Hlen; lia|].
  intros x Hx. rewrite length_fmap.
  destruct (filter_ne_NoDup l x Hnd Hx) as [Hnd' Hlen']. apply IH; [done|lia].
Qed.

Lemma elem_of_rearrangements fuel l p :
  NoDup l → length l = fuel → p ∈ rearrangements fuel l ↔ p ≡ₚ l.
Proof.
  revert l p. induction fuel as [|fuel IH]; intros l p Hnd Hlen.
  { apply length_zero_iff_nil in Hlen as ->. simpl.
    rewrite list_elem_of_singleton. split; [by intros ->|].
    intros Hp. by apply Permutation_nil_r. }
  cbn [rearrangements]. rewrite list_elem_of_bind. split.
  - intros (x & Hp & Hx). apply list_elem_of_fmap in Hp as (q & -> & Hq).
    destruct (filter_ne_NoDup l x Hnd Hx) as [Hnd' Hlen'].
    apply IH in Hq; [|done|lia]. rewrite Hq.
    apply NoDup_Permutation; [|done|].
    + apply NoDup_cons. split; [|done]. rewrite list_elem_of_filter. tauto.
    + intros y. rewrite elem_of_cons, list_elem_of_filter.
      destruct (decide (y = x)) as [->|]; [tauto|]. tauto.
  - intros Hp. destruct p as [|x q].
    { apply Permutation_nil in Hp. by subst. }
    assert (x ∈ l) as Hx by (rewrite <- Hp; left).
    exists x. split; [|done]. apply list_elem_of_fmap. exists q. split; [done|].
    destruct (filter_ne_NoDup l x Hnd Hx) as [Hnd' Hlen'].
    apply IH; [done|lia|].
    assert (NoDup (x :: q)) as [Hxq Hq]%NoDup_cons by by rewrite Hp.
    apply NoDup_Permutation; [done..|].
    intros y. rewrite list_elem_of_filter, <- Hp, elem_of_cons.
    split; [intros ?; split; [congruence|tauto]|]. intros [? [?|?]]; done.
Qed.

Lemma rearrangements_NoDup fuel l :
  NoDup l → length l = fuel → NoDup (rearrangements fuel l).
Proof.
  revert l. induction fuel as [|fuel IH]; intros l Hnd Hlen.
  { apply NoDup_singleton. }
  cbn [rearrangements]. apply NoDup_bind; [| |done].
  - intros x1 x2 p _ _ (q1 & -> & _)%list_elem_of_fmap
      (q2 & [= -> _] & _)%list_elem_of_fmap. done.
  - intros x Hx. destruct (filter_ne_NoDup l x Hnd Hx) as [Hnd' Hlen'].
    apply NoDup_fmap_2; [apply _|]. apply IH; [done|lia].
Qed.

Lemma length_filter_bind {A B} (P : B → Prop) `{!∀ y, Decision (P y)}
    (g : A → list B) (l : list A) :
  length (filter P (l ≫= g))
  = sum_list ((λ x, length (filter P (g x))) <$> l).
Proof.
  induction l as [|x l IH]; [done|].
  by rewrite bind_cons, filter_app, length_app, IH.
Qed.

Lemma sum_list_zero {A} (l : list A) (h : A → nat) :
  (∀ y, y ∈ l → h y = 0) → sum_list (h <$> l) = 0.
Proof.
  induction l as [|y l IH]; intros Hh; [done|].
  csimpl. rewrite Hh by left. apply IH. intros; apply Hh; by right.
Qed.

Lemma sum_list_single (l : list nat) (h : nat → nat) x :
  NoDup l → x ∈ l → (∀ y, y ∈ l → y ≠ x → h y = 0) →
  sum_list (h <$> l) = h x.
Proof.
  intros Hnd Hx Hh. induction Hnd as [|y l Hy Hnd IH].
  { by apply elem_of_nil in Hx. }
  csimpl. destruct (decide (y = x)) as [->|Hne].
  - rewrite sum_list_zero; [lia|].
    intros z Hz. apply Hh; [by right|]. by intros ->.
  - rewrite (Hh y) by (done || left). apply IH.
    + apply elem_of_cons in Hx as [->|Hx]; done.
    + intros w Hw. apply Hh. by right.
Qed.

Lemma length_filter_cons_prefix (x : nat) xs (qs : list (list nat)) :
  length (filter (λ p, take (S (length xs)) p = x :: xs) ((x ::.) <$> qs))
  = length (filter (λ p, take (length xs) p = xs) qs).
Proof.
  induction qs as [|q qs IH]; [done|].
  rewrite fmap_cons, !filter_cons.
  destruct (decide (take (length xs) q = xs)) as [Hq|Hq].
  - rewrite decide_True by (cbn [take]; by rewrite Hq).
    cbn [length]. by rewrite IH.
  - rewrite decide_False by (cbn [take]; congruence). done.
Qed.

(** Of the rearrangements of [l], those that start with a given run
    [xs] of distinct entries of [l] are the rearrangements of the
    other entries behind [xs]. *)
Lemma rearrangements_with_prefix fuel l xs :
  NoDup l → length l = fuel → NoDup xs → (∀ x, x ∈ xs → x ∈ l) →
  length (filter (λ p, take (length xs) p = xs) (rearrangements fuel l))
  = fact (fuel - length xs).
Proof.
  revert fuel l. induction xs as [|x xs IH]; intros fuel l Hnd Hlen Hxs Hin.
  { rewrite filter_all by done. rewrite Nat.sub_0_r.
    by apply rearrangements_length. }
  apply NoDup_cons in Hxs as [Hx Hxs].
  assert (x ∈ l) as Hxl by (apply Hin; left).
  destruct fuel as [|fuel].
  { apply length_zero_iff_nil in Hlen as ->. by apply elem_of_nil in Hxl. }
  destruct (filter_ne_NoDup l x Hnd Hxl) as [Hnd' Hlen'].
  cbn [rearrangements]. rewrite length_filter_bind.
  rewrite (sum_list_single l _ x Hnd Hxl).
  - change (S fuel - length (x :: xs)) with (fuel - length xs).
    etrans; [apply (length_filter_cons_prefix x xs)|].
    apply IH; [done|lia|done|].
    intros y Hy. apply list_elem_of_filter. split; [congruence|].
    apply Hin. by right.
  - intros y Hy Hne. apply length_zero_iff_nil, filter_none.
    intros p (q & -> & _)%list_elem_of_fmap. simpl. congruence.
Qed.

(** [a[idx]] determines [idx] when [a] has no repeated entry. *)
Lemma take_rows_inj (a : list nat) idx1 idx2 sel :
  NoDup a → take_rows a idx1 = Some sel → take_rows a idx2 = Some sel →
  idx1 = idx2.
Proof.
  intros Hnd H1%mapM_Some_1 H2%mapM_Some_1.
  revert idx2 H2. induction H1 as [|i s idx1 sel Hi _ IH]; intros idx2 H2.
  { by apply Forall2_nil_inv_r in H2. }
  apply Forall2_cons_inv_r in H2 as (j & idx2' & Hj & H2 & ->).
  f_equal; [|by apply IH]. by eapply NoDup_lookup.
Qed.

Lemma take_rows_positions (a : list nat) sel :
  NoDup sel → (∀ x, x ∈ sel → x ∈ a) →
  ∃ idx, take_rows a idx = Some sel ∧ NoDup idx ∧ length idx = length sel
         ∧ ∀ i, i ∈ idx → i ∈ seq 0 (length a).
Proof.
  intros Hnd Hin. induction Hnd as [|s sel Hs Hnd IH].
  { exists []. split_and!; [done|constructor|done|].
    by intros i ?%elem_of_nil. }
  destruct IH as (idx & Hidx & Hndi & Hlen & Hlt).
  { intros; apply Hin; by right. }
  assert (s ∈ a) as [i Hi]%list_elem_of_lookup by (apply Hin; left).
  exists (i :: idx). unfold take_rows in *. split_and!.
  - apply mapM_Some_2. constructor; [done|by apply mapM_Some_1].
  - apply NoDup_cons. split; [|done]. intros Hii.
    apply mapM_Some_1 in Hidx.
    apply list_elem_of_lookup in Hii as [j Hj].
    destruct (Forall2_lookup_l _ _ _ _ _ Hidx Hj) as (s' & Hs' & His').
    apply Hs. rewrite Hi in His'. simplify_eq.
    by eapply list_elem_of_lookup_2.
  - simpl. by rewrite Hlen.
  - intros j [->|Hj]%elem_of_cons; [|by apply Hlt].
    apply elem_of_seq. apply lookup_lt_Some in Hi. lia.
Qed.

(** Every run [sel] of [size] distinct entries of the population [a]
    is what [np.random.choice] returns for exactly (n - size)! of the
    n! permutations of the positions. *)
Lemma choice_count (a sel : list nat) :
  NoDup a → NoDup sel → (∀ x, x ∈ sel → x ∈ a) →
  length (filter (λ p, take_rows a (take (length sel) p) = Some sel)
            (sample_space (length a)))
  = fact (length a - length sel).
Proof.
  intros Ha Hsel Hin.
  destruct (take_rows_positions a sel Hsel Hin)
    as (idx & Hidx & Hnd & Hlen & Hlt).
  rewrite <- Hlen.
  rewrite <- (rearrangements_with_prefix (length a) (seq 0 (length a)) idx);
    [|apply NoDup_seq|by rewrite length_seq|done..].
  unfold sample_space. f_equal. apply filter_ext_elem.
  intros p _. split.
  - intros Hp. apply (take_rows_inj a _ _ sel Ha Hp Hidx).
  - by intros ->.
Qed.

Lemma length_filter_replicate {A} (P : A → Prop) `{!∀ x, Decision (P x)}
    (l : list A) c :
  length (filter P (mjoin (replicate c l))) = c * length (filter P l).
Proof.
  induction c as [|c IH]; [done|].
  cbn [replicate]. change (mjoin (l :: replicate c l)) with (l ++ mjoin (replicate c l)).
  rewrite filter_app, length_app, IH. simpl. lia.
Qed.

(** The choice under a generator that draws its permutation
    uniformly: when the states [gs] yield every permutation of
    [range(n)] equally often ([c] times each), they yield every run
    [sel] of distinct entries of the population equally often. *)
Lemma choice_uniform `{RandomState G} (gs : list G) c (a sel : list nat) :
  (λ gu, (permutation gu (length a)).1) <$> gs
    ≡ₚ mjoin (replicate c (sample_space (length a))) →
  NoDup a → NoDup sel → (∀ x, x ∈ sel → x ∈ a) →
  length (filter (λ gu, take_rows a (take (length sel)
                                       (permutation gu (length a)).1)
                        = Some sel) gs)
  = c * fact (length a - length sel).
Proof.
  intros Hgs Ha Hsel Hin.
  rewrite <- (choice_count a sel Ha Hsel Hin).
  rewrite <- (length_filter_replicate
                (λ p, take_rows a (take (length sel) p) = Some sel)).
  rewrite <- Hgs. clear Hgs.
  induction gs as [|gu gs IH]; [done|].
  rewrite fmap_cons, !filter_cons. case_decide; simpl; by rewrite IH.
Qed.

(** ** The rounds of the loop *)

Section holdout_rounds.
Context `{RandomState G}.
Implicit Types (inter : list inter_row) (g : G).

(** The rounds of the loop: the round of the [j]-th user is one call
    of [np.random.choice] on the positions of the rows of that user,
    in the state [gu] in which the rounds of the users before have
    left the generator. *)
Lemma holdout_loop_rounds inter users g acc idxs g' :
  holdout_loop inter users g acc = Some (idxs, g') →
  ∃ picks,
    idxs = acc ++ concat picks
    ∧ Forall2 (picked inter) users picks
    ∧ ∀ j u pick, users !! j = Some u → picks !! j = Some pick →
        let rows := np_where (λ r, i_user r = u) inter in
        ∃ acc_j gu,
          holdout_loop inter (take j users) g acc = Some (acc_j, gu)
          ∧ take_rows rows (take (num_sample (length rows))
                              (permutation gu (length rows)).1)
            = Some pick.
Proof.
  revert g acc. induction users as [|u users IH]; intros g acc; simpl.
  { intros [= <- <-]. exists []. by rewrite app_nil_r. }
  destruct (random_choice g _ _) as [[pick g1]|] eqn:Hpick; [|done]. simpl.
  intros (picks & -> & Hpicks & Hrounds)%IH.
  exists (pick :: picks). rewrite <- (assoc_L (++)). split; [done|].
  split.
  - constructor; [|done].
    apply random_choice_Some in Hpick as [Hlen Hrest].
    split; [|done]. by rewrite Hlen, np_where_length.
  - intros [|j] v pick' Hv Hp; simplify_eq/=.
    + exists acc, g. split; [done|].
      unfold random_choice in Hpick. case_decide; [|done].
      destruct (permutation g _) as [p g2]. simpl in *.
      destruct (take_rows _ (take _ p)) as [r|]; by simplify_eq/=.
    + rewrite Hpick. simpl. by apply Hrounds.
Qed.
(** The positions of a user among the held-out positions are the
    pick of that user's round. *)
Lemma picks_of_user inter users picks j u pick :
  NoDup users → Forall2 (picked inter) users picks →
  users !! j = Some u → picks !! j = Some pick →
  filter (λ i, user_at inter i = Some u) (concat picks) = pick.
Proof.
  intros Hnd Hpicks. revert j.
  induction Hpicks as [|u0 pick0 users picks Hpick Hpicks IH]; intros j Hu Hp;
    [done|].
  apply NoDup_cons in Hnd as [Hu0 Hnd]. simpl. rewrite filter_app.
  destruct j as [|j]; simplify_eq/=.
  - rewrite filter_all by (intros; by eapply picked_user_at).
    rewrite filter_none, app_nil_r; [done|].
    destruct (picks_spec inter users picks Hnd Hpicks) as (_ & Hin & _).
    intros i (v & Hv & Hiv)%Hin. congruence.
  - rewrite filter_none; [by eapply IH|].
    intros i Hi. rewrite (picked_user_at _ _ _ _ Hpick Hi).
    intros [= ->]. apply Hu0. by eapply list_elem_of_lookup_2.
Qed.

Lemma holdout_sample_round inter g idxs g' j u :
  holdout_sample inter g = Some (idxs, g') →
  np_unique Nat.le (i_user <$> inter) !! j = Some u →
  let rows := np_where (λ r, i_user r = u) inter in
  ∃ acc gu,
    holdout_loop inter (take j (np_unique Nat.le (i_user <$> inter))) g []
      = Some (acc, gu)
    ∧ take_rows rows (take (num_sample (length rows))
                        (permutation gu (length rows)).1)
      = Some (filter (λ i, user_at inter i = Some u) idxs).
Proof.
  intros Hloop Hj rows.
  apply holdout_loop_rounds in Hloop as (picks & -> & Hpicks & Hrounds).
  destruct (Forall2_lookup_l _ _ _ _ _ Hpicks Hj) as (pick & Hp & _).
  destruct (Hrounds j u pick Hj Hp) as (acc & gu & Hacc & Hgu).
  exists acc, gu. split; [done|]. simpl.
  by rewrite (picks_of_user inter _ picks j u pick)
    by (done || apply (np_unique_NoDup Nat.le)).
Qed.
End holdout_rounds.

Lemma sample_space_spec n :
  length (sample_space n) = fact n
  ∧ NoDup (sample_space n)
  ∧ ∀ p, p ∈ sample_space n ↔ p ≡ₚ seq 0 n.
Proof.
  unfold sample_space. split_and!.
  - apply rearrangements_length; [apply NoDup_seq|apply length_seq].
  - apply rearrangements_NoDup; [apply NoDup_seq|apply length_seq].
  - intros p. apply elem_of_rearrangements; [apply NoDup_seq|apply length_seq].
Qed.

(** C10.  The loop of cell 12 always returns, and of every user with
    n_u rows in [inter] it holds out exactly int(0.4 * n_u) positions,
    the integer part of two fifths of n_u: positions of rows of that
    user, no position twice.  They are chosen by one call of
    [np.random.choice] without replacement: the positions of the
    user's rows at the first int(0.4 * n_u) entries of the permutation
    of [range(n_u)] that the generator returns in the state in which
    the rounds of the users before have left it.  Every
    run of int(0.4 * n_u) distinct positions of the user is the choice
    for exactly (n_u - int(0.4 * n_u))! of the n_u! permutations; so
    under a generator that draws its permutation uniformly (states that
    yield every permutation equally often) every such run is chosen
    equally often.  A user with exactly two rows has nothing held out,
    and both rows are in [train]. *)
Theorem holdout_takes_two_fifths_rounded_down `{RandomState G}
    (inter : list inter_row) (g : G) :
  ∃ idxs g',
    holdout_sample inter g = Some (idxs, g')
    ∧ (∀ s, data_split inter g = Some s →
            random_idx_list s = idxs ∧ train s = np_delete inter idxs)
    ∧ NoDup idxs
    ∧ (∀ i, i ∈ idxs → i < length inter)
    ∧ (∀ n, length (sample_space n) = fact n
            ∧ NoDup (sample_space n)
            ∧ ∀ p, p ∈ sample_space n ↔ p ≡ₚ seq 0 n)
    ∧ ∀ u,
        let n_u := length (filter (λ r, i_user r = u) inter) in
        let k_u := num_sample n_u in
        let rows := np_where (λ r, i_user r = u) inter in
        let held := filter (λ i, user_at inter i = Some u) idxs in
        length held = k_u
        ∧ 5 * k_u ≤ 2 * n_u < 5 * (k_u + 1)
        ∧ (n_u = 2 →
           held = []
           ∧ filter (λ r, i_user r = u) (np_delete inter idxs)
               = filter (λ r, i_user r = u) inter)
        ∧ length rows = n_u
        ∧ (∀ j, np_unique Nat.le (i_user <$> inter) !! j = Some u →
             ∃ acc gu,
               holdout_loop inter
                 (take j (np_unique Nat.le (i_user <$> inter))) g []
                 = Some (acc, gu)
               ∧ (permutation gu n_u).1 ∈ sample_space n_u
               ∧ take_rows rows (take k_u (permutation gu n_u).1)
                 = Some held)
        ∧ (∀ sel, NoDup sel → (∀ i, i ∈ sel → i ∈ rows) → length sel = k_u →
             length (filter (λ p, take_rows rows (take k_u p) = Some sel)
                       (sample_space n_u))
             = fact (n_u - k_u))
        ∧ (∀ (gs : list G) c sel,
             (λ gu, (permutation gu n_u).1) <$> gs
               ≡ₚ mjoin (replicate c (sample_space n_u)) →
             NoDup sel → (∀ i, i ∈ sel → i ∈ rows) → length sel = k_u →
             length (filter (λ gu, take_rows rows
                                     (take k_u (permutation gu n_u).1)
                                   = Some sel) gs)
             = c * fact (n_u - k_u)).
Proof.
  destruct (holdout_loop_is_Some inter (np_unique Nat.le (i_user <$> inter)) g [])
    as [[idxs g'] Hloop].
  fold (holdout_sample inter g) in Hloop.
  exists idxs, g'. split; [done|].
  destruct (holdout_sample_Some _ _ _ _ Hloop) as (Hnd & Hlt & Hcount).
  split_and!; [|done..|apply sample_space_spec|].
  - intros s (g1 & Hs & -> & _)%data_split_Some.
    rewrite Hloop in Hs. by simplify_eq.
  - intros u n_u k_u rows held.
    assert (length rows = n_u) as Hrows by apply np_where_length.
    split; [apply Hcount|]. split; [apply num_sample_floor|].
    split_and!; [|done| | |].
    + intros Hn.
      assert (held = []) as Hheld.
      { apply length_zero_iff_nil. unfold held. rewrite Hcount. fold n_u.
        by rewrite Hn. }
      split; [done|]. apply np_delete_keeps_user. intros i Hi Hu.
      assert (i ∈ held) as Hin by by apply list_elem_of_filter.
      rewrite Hheld in Hin. by apply not_elem_of_nil in Hin.
    + intros j Hj.
      destruct (holdout_sample_round inter g idxs g' j u Hloop Hj)
        as (acc & gu & Hacc & Hgu).
      fold rows in Hgu. rewrite Hrows in Hgu. fold k_u held in Hgu.
      exists acc, gu. split_and!; [done| |done].
      apply sample_space_spec, permutation_Permutation.
    + intros sel Hsel Hin Hlen. rewrite <- Hlen, <- Hrows.
      apply choice_count; [apply np_where_NoDup|done..].
    + intros gs c sel Hgs Hsel Hin Hlen. rewrite <- Hrows in Hgs |- *.
      rewrite <- Hlen. apply choice_uniform; [done|apply np_where_NoDup|done..].
Qed.

Lemma holdout_takes_two_fifths_rounded_down_witness :
  let gs := [[0; 0]; [0; 1]; [1; 0]; [1; 1]; [2; 0]; [2; 1]] in
  (λ gu, (permutation gu 3).1) <$> gs ≡ₚ sample_space 3
  ∧ length (filter (λ gu, take_rows [0; 1; 2] (take 1 (permutation gu 3).1)
                          = Some [1]) gs) = 2.
Proof.
  intros gs.
  assert ((λ gu, (permutation gu 3).1) <$> gs ≡ₚ sample_space 3) as Hgs
    by by apply (bool_decide_unpack _).
  split; [done|].
  destruct (holdout_takes_two_fifths_rounded_down
              [InterRow 3 0 1; InterRow 3 1 0; InterRow 3 2 0] [0; 0])
    as (idxs & g' & _ & _ & _ & _ & _ & Hu).
  destruct (Hu 3) as (_ & _ & _ & _ & _ & _ & Huniform).
  apply (Huniform gs 1 [1]).
  - change ((λ gu, (permutation gu 3).1) <$> gs ≡ₚ sample_space 3 ++ []).
    by rewrite app_nil_r.
  - apply NoDup_singleton.
  - intros j ->%list_elem_of_singleton.
    change (1 ∈ [0; 1; 2]). by apply (bool_decide_unpack _).
  - done.
Defined.

(** C6.  When cell 12 completes, [train], [valid] and [test] are the
    rows of [inter] at three lists of positions in which every position
    of [inter] occurs exactly once; so the three arrays together hold
    the rows of [inter] with their multiplicities, and for every user
    the three row counts add up to the count in [inter]. *)
Theorem split_partitions_inter `{RandomState G} (inter : list inter_row)
    (g : G) (s : split_result) :
  data_split inter g = Some s →
  let train_positions :=
    filter (λ i, i ∈ train_idx_list s) (seq 0 (length inter)) in
  take_rows inter train_positions = Some (train s)
  ∧ take_rows inter (valid_idx_list s) = Some (valid s)
  ∧ take_rows inter (test_idx_list s) = Some (test s)
  ∧ train_positions ++ valid_idx_list s ++ test_idx_list s
      ≡ₚ seq 0 (length inter)
  ∧ train s ++ valid s ++ test s ≡ₚ inter
  ∧ ∀ u, length (filter (λ r, i_user r = u) (train s))
         + length (filter (λ r, i_user r = u) (valid s))
         + length (filter (λ r, i_user r = u) (test s))
         = length (filter (λ r, i_user r = u) inter).
Proof.
  intros Hs. pose proof (data_split_Permutation _ _ _ Hs) as Hrows.
  apply data_split_Some in Hs as (g' & Hloop & Htrain & Hidx & Hvt & Hv & Ht).
  apply holdout_sample_Some in Hloop as (Hnd & Hlt & _).
  apply train_test_split_Some in Hvt.
  intros train_positions.
  assert (train_positions
            = filter (λ i, i ∉ random_idx_list s) (seq 0 (length inter)))
    as Hpos.
  { apply filter_ext_elem. intros i Hi.
    rewrite Hidx, elem_of_difference, !elem_of_list_to_set. tauto. }
  split_and!; [|done..| | |].
  - rewrite Hpos, Htrain. apply np_delete_take_rows.
  - rewrite Hpos, Hvt. by apply complement_Permutation.
  - done.
  - intros u. rewrite <- Hrows, !filter_app, !length_app. lia.
Qed.

Lemma split_partitions_inter_witness :
  let s := SplitResult [0; 1] [InterRow 4 2 0; InterRow 4 0 0; InterRow 4 3 0]
             (list_to_set (seq 0 5) ∖ list_to_set [0; 1]) [1] [0]
             [InterRow 4 1 0] [InterRow 4 0 1] in
  let train_positions := filter (λ i, i ∈ train_idx_list s) (seq 0 5) in
  take_rows inter_five train_positions = Some (train s)
  ∧ take_rows inter_five (valid_idx_list s) = Some (valid s)
  ∧ take_rows inter_five (test_idx_list s) = Some (test s)
  ∧ train_positions ++ valid_idx_list s ++ test_idx_list s ≡ₚ seq 0 5
  ∧ train s ++ valid s ++ test s ≡ₚ inter_five
  ∧ ∀ u, length (filter (λ r, i_user r = u) (train s))
         + length (filter (λ r, i_user r = u) (valid s))
         + length (filter (λ r, i_user r = u) (test s))
         = length (filter (λ r, i_user r = u) inter_five).
Proof.
  apply (split_partitions_inter inter_five [0; 0]). reflexivity.
Defined.

(** ** Adjacency builder *)

(** The dictionary of the append-or-create loop lists, for every user,
    the items of the rows of that user, in row order and with
    repetitions; users without a row have no entry. *)
Lemma group_items_lookup rows u :
  group_items rows !! u =
    let items := i_item <$> filter (λ r, i_user r = u) rows in
    if decide (items = []) then None else Some items.
Proof.
  induction rows as [|r rows IH] using rev_ind; [done|].
  unfold group_items in *. rewrite foldl_snoc, filter_app, fmap_app.
  set (d := foldl _ ∅ rows) in *. cbv zeta in *.
  set (items := i_item <$> filter (λ r, i_user r = u) rows) in *.
  rewrite filter_cons, filter_nil.
  destruct (decide (i_user r = u)) as [<-|Hne].
  - rewrite IH. case_decide as Hitems.
    + rewrite lookup_insert_eq, Hitems. done.
    + rewrite lookup_insert_eq. simpl.
      rewrite decide_False; [done|]. by destruct items.
  - simpl. rewrite app_nil_r.
    destruct (d !! i_user r); by rewrite lookup_insert_ne.
Qed.

Lemma create_dataset_Some {vec uvec : Type} `{RandomState G} CUT df
    (image text price transaction : table vec)
    (df_feature : list (string * uvec)) (g : G) (a : @artifacts vec) :
  create_dataset CUT df image text price transaction df_feature g = Some a →
  ∃ rows,
    label_generator
      (threshold_filter CUT df image text price transaction df_feature)
      = Some rows
    ∧ make_inter (l_Buyer <$> rows) (l_Token_ID <$> rows) (l_Price_diff <$> rows)
        = Some (out_inter a)
    ∧ out_num_item a = len_set (l_Token_ID <$> rows)
    ∧ data_split (out_inter a) g = Some (out_split a)
    ∧ out_adj_dict a = adj_dict (out_inter a)
    ∧ feature_aligner (l_Token_ID <$> rows) image text price transaction
        = Some (out_feat a).
Proof.
  unfold create_dataset. intros Ha.
  destruct (label_generator _) as [rows|] eqn:Hrows; [|done]. simpl in Ha.
  destruct (make_inter _ _ _) as [inter|] eqn:Hinter; [|done]. simpl in Ha.
  destruct (data_split inter g) as [s|] eqn:Hs; [|done]. simpl in Ha.
  destruct (feature_aligner _ _ _ _ _) as [feat|] eqn:Hfeat; [|done].
  injection Ha as <-. simpl. by exists rows.
Qed.

(** C2, as the code has it.  The adjacency dictionary is built from
    all rows of [inter]: the entry of a user is the sequence of the
    mapped items of that user's rows of [inter], with multiplicity and
    in row order (no entry for a user without rows), and so it holds
    the items of the user's [train], [valid] and [test] rows
    together. *)
Theorem adjacency_lists_every_inter_row {vec uvec : Type} `{RandomState G}
    CUT df (image text price transaction : table vec)
    (df_feature : list (string * uvec)) (g : G) (a : @artifacts vec) (u : nat) :
  create_dataset CUT df image text price transaction df_feature g = Some a →
  let s := out_split a in
  let items := i_item <$> filter (λ r, i_user r = u) (out_inter a) in
  out_adj_dict a !! u = (if decide (items = []) then None else Some items)
  ∧ items ≡ₚ i_item <$> filter (λ r, i_user r = u)
                          (train s ++ valid s ++ test s).
Proof.
  intros (rows & _ & _ & _ & Hs & -> & _)%create_dataset_Some s items.
  split; [apply group_items_lookup|].
  apply data_split_Permutation in Hs as Hperm.
  unfold items. fold s in Hperm. by rewrite Hperm.
Qed.

Lemma adjacency_lists_every_inter_row_witness :
  ∃ a, create_dataset 5 frame_five_sales
         four_items four_items four_items four_items [("A", ())] [0; 0]
       = Some a
     ∧ let s := out_split a in
       let items := i_item <$> filter (λ r, i_user r = 4) (out_inter a) in
       out_adj_dict a !! 4 = (if decide (items = []) then None else Some items)
       ∧ items ≡ₚ i_item <$> filter (λ r, i_user r = 4)
                               (train s ++ valid s ++ test s).
Proof.
  eexists. split; [by vm_compute|].
  eapply (adjacency_lists_every_inter_row 5 frame_five_sales
            four_items four_items four_items four_items [("A", ())] [0; 0]).
  by vm_compute.
Defined.

(** C2 as claimed fails: in this run two rows of user 4 are held out,
    and their items 0 and 1 are in the user's adjacency entry all the
    same; the entry is not the item sequence of the user's train
    rows. *)
Lemma adjacency_includes_held_out_rows :
  ∃ a, create_dataset 5 frame_five_sales
         four_items four_items four_items four_items [("A", ())] [0; 0]
       = Some a
     ∧ out_adj_dict a !! 4 = Some [0; 1; 2; 0; 3]
     ∧ i_item <$> filter (λ r, i_user r = 4) (train (out_split a)) = [2; 0; 3]
     ∧ out_adj_dict a !! 4
         ≠ Some (i_item <$> filter (λ r, i_user r = 4) (train (out_split a))).
Proof. eexists. split; [by vm_compute|]. by vm_compute. Qed.

(** ** Reproducibility *)

(** What does not depend on the state of the global generator. *)
Lemma inter_independent_of_generator {vec uvec : Type} `{RandomState G}
    CUT df (image text price transaction : table vec)
    (df_feature : list (string * uvec)) (g1 g2 : G) (a1 a2 : @artifacts vec) :
  create_dataset CUT df image text price transaction df_feature g1 = Some a1 →
  create_dataset CUT df image text price transaction df_feature g2 = Some a2 →
  out_inter a1 = out_inter a2
  ∧ out_num_item a1 = out_num_item a2
  ∧ out_adj_dict a1 = out_adj_dict a2
  ∧ out_feat a1 = out_feat a2.
Proof.
  intros (rows1 & Hr1 & Hi1 & Hn1 & _ & Ha1 & Hf1)%create_dataset_Some
    (rows2 & Hr2 & Hi2 & Hn2 & _ & Ha2 & Hf2)%create_dataset_Some.
  rewrite Hr1 in Hr2. injection Hr2 as <-.
  rewrite Hi1 in Hi2. injection Hi2 as Hi.
  rewrite Hf1 in Hf2. injection Hf2 as Hf.
  by rewrite Ha1, Ha2, Hn1, Hn2, Hi, Hf.
Qed.

(** C3.  The holdout sample is drawn from the global generator, which
    the notebook never seeds: on one frame, two states of that
    generator give the same [inter] and adjacency dictionary and
    different [train], [valid] and [test], although the valid/test
    split is seeded with 42 in both runs. *)
Theorem split_depends_on_global_generator :
  ∃ a1 a2,
    create_dataset 5 frame_five_sales
      four_items four_items four_items four_items [("A", ())] [0; 0] = Some a1
    ∧ create_dataset 5 frame_five_sales
        four_items four_items four_items four_items [("A", ())] [2; 2] = Some a2
    ∧ out_inter a1 = out_inter a2
    ∧ out_adj_dict a1 = out_adj_dict a2
    ∧ train (out_split a1) ≠ train (out_split a2)
    ∧ valid (out_split a1) ≠ valid (out_split a2)
    ∧ test (out_split a1) ≠ test (out_split a2).
Proof.
  eexists _, _. split; [by vm_compute|]. split; [by vm_compute|].
  by vm_compute.
Qed.

(** ** Feature aligner *)

Lemma Sorted_seq a n : Sorted Nat.le (seq a n).
Proof.
  revert a. induction n as [|n IH]; intros a; simpl; [constructor|].
  constructor; [apply IH|]. destruct n; constructor. simpl. lia.
Qed.

Lemma merge_sort_seq (l : list nat) a n :
  l ≡ₚ seq a n → merge_sort Nat.le l = seq a n.
Proof.
  intros Hl. apply (Sorted_unique Nat.le).
  - apply (Sorted_merge_sort Nat.le).
  - apply Sorted_seq.
  - by rewrite merge_sort_Permutation.
Qed.

Lemma omap_id_Some {A} (l : list A) : omap id (Some <$> l) = l.
Proof. induction l as [|x l IH]; simpl; by f_equal. Qed.

(** An index that is a rearrangement of [0, n) sorts to [0, n). *)
Lemma np_sort_Permutation (ks : list (option nat)) n :
  ks ≡ₚ Some <$> seq 0 n → np_sort ks = Some <$> seq 0 n.
Proof.
  intros Hks. unfold np_sort.
  rewrite (merge_sort_seq _ 0 n) by (by rewrite Hks, omap_id_Some).
  rewrite (filter_none (λ k, k = None) ks), app_nil_r; [done|].
  intros k Hk ->. rewrite Hks in Hk.
  by apply list_elem_of_fmap in Hk as (? & ? & _).
Qed.

Lemma array_equal_refl_Some (l : list nat) :
  array_equal (Some <$> l) (Some <$> l) = true.
Proof.
  unfold array_equal. rewrite bool_decide_eq_true_2 by done. simpl.
  apply forallb_forall. intros k Hk%list_elem_of_In.
  apply list_elem_of_fmap in Hk as (x & -> & _).
  by apply bool_decide_eq_true_2.
Qed.


Lemma mapping_on_unique `{Countable K} (uniq : list K) offset :
  NoDup uniq →
  (λ k, mapping_loop uniq offset !! k) <$> uniq
    = Some <$> seq offset (length uniq).
Proof.
  intros Hnd. apply list_eq. intros i. rewrite !list_lookup_fmap.
  destruct (uniq !! i) as [k|] eqn:Hk; simpl.
  - rewrite lookup_seq_lt by (by eapply lookup_lt_Some). simpl. f_equal.
    apply (mapping_loop_lookup uniq offset k (offset + i) Hnd).
    exists i. split; [done|lia].
  - apply lookup_ge_None in Hk.
    by rewrite lookup_ge_None_2 by (rewrite length_seq; lia).
Qed.

Section feature_aligner_props.
Context {vec : Type}.
Implicit Types (t image text price transaction : table vec).

Lemma reindex_index (mapping : gmap Z nat) t :
  (reindex mapping t).*1 = (λ k, mapping !! k) <$> index t.
Proof.
  unfold reindex, index. rewrite <- !list_fmap_compose.
  apply list_fmap_ext. by intros i [k v].
Qed.

Lemma restrict_index item_unique t :
  index (restrict item_unique t) = filter (λ k, k ∈ item_unique) (index t).
Proof.
  unfold index, restrict. induction t as [|[k v] t IH]; [done|].
  rewrite fmap_cons, !filter_cons. simpl.
  case_decide; by rewrite ?fmap_cons, IH.
Qed.

(** A table with distinct keys that has a row for every item is left,
    after restriction and reindexing, with the keys [0, num_items) in
    some order. *)
Lemma aligned_keys (item : list Z) t :
  NoDup (index t) → (∀ k, k ∈ item → k ∈ index t) →
  np_sort (reindex (mapping_i item) (restrict (np_unique Z.le item) t)).*1
    = Some <$> seq 0 (len_set item).
Proof.
  intros Hnd Hitem. apply np_sort_Permutation.
  rewrite reindex_index, restrict_index.
  assert (filter (λ k, k ∈ np_unique Z.le item) (index t)
            ≡ₚ np_unique Z.le item) as ->.
  { apply NoDup_Permutation;
      [by apply NoDup_filter|apply (np_unique_NoDup Z.le)|].
    intros k. rewrite list_elem_of_filter, (elem_of_np_unique Z.le).
    specialize (Hitem k). tauto. }
  unfold mapping_i.
  rewrite mapping_on_unique by apply (np_unique_NoDup Z.le).
  by rewrite (np_unique_length Z.le).
Qed.


(** The assertions pass on such tables. *)
Lemma feature_aligner_is_Some (item : list Z) image text price transaction :
  NoDup (index image) → NoDup (index text) →
  NoDup (index price) → NoDup (index transaction) →
  (∀ k, k ∈ item → k ∈ indices image text price transaction) →
  ∃ al, feature_aligner item image text price transaction = Some al
        ∧ np_sort (a_image al).*1 = Some <$> seq 0 (len_set item)
        ∧ np_sort (a_text al).*1 = Some <$> seq 0 (len_set item)
        ∧ np_sort (a_price al).*1 = Some <$> seq 0 (len_set item)
        ∧ np_sort (a_transaction al).*1 = Some <$> seq 0 (len_set item).
Proof.
  intros H1 H2 H3 H4 Hitem. unfold feature_aligner.
  rewrite !aligned_keys, array_equal_refl_Some;
    try done; try (intros k Hk%Hitem%elem_of_indices; tauto).
  eexists. split; [done|]. simpl.
  rewrite !aligned_keys;
    try done; try (intros k Hk%Hitem%elem_of_indices; tauto).
Qed.

End feature_aligner_props.

Lemma StronglySorted_lt_seq a n : StronglySorted (strict Nat.le) (seq a n).
Proof.
  revert a. induction n as [|n IH]; intros a; simpl; constructor; [apply IH|].
  apply Forall_forall. intros x Hx%elem_of_seq. unfold strict. lia.
Qed.


Lemma inter_rows_columns (user_ item_ labels : list nat) :
  length user_ = length item_ → length labels = length item_ →
  i_item <$> zip_with (λ u il, InterRow u il.1 il.2) user_ (zip item_ labels)
    = item_.
Proof.
  revert item_ labels.
  induction user_ as [|u user_ IH]; intros [|i item_] [|l labels] ??;
    simplify_eq/=; [done|].
  by rewrite IH.
Qed.


Lemma label_generator_tokens {vec uvec : Type} CUT df
    (image text price transaction : table vec)
    (df_feature : list (string * uvec)) rows k :
  label_generator
    (threshold_filter CUT df image text price transaction df_feature)
    = Some rows →
  k ∈ l_Token_ID <$> rows → k ∈ indices image text price transaction.
Proof.
  intros (_ & -> & _)%label_generator_Some.
  intros (r & -> & [_ Hr]%list_elem_of_filter)%list_elem_of_fmap.
  unfold threshold_filter in Hr. rewrite user_cut_filter in Hr.
  apply list_elem_of_filter in Hr as [_ Hr].
  by apply elem_of_feature_filter in Hr as (_ & ? & _).
Qed.



(** C9 as claimed fails.  The frame of five sales with a feature
    table in which the row of token 1 stands twice: cells 6, 8 and 12
    complete, the reindexed tables have the same set of keys
    {0, 1, 2, 3}, and the first assertion of cell 25 fires, because the
    sorted index of [image] has five entries and that of [text] four. *)
Lemma repeated_key_fails_assertion :
  ∃ rows inter s,
    label_generator
      (threshold_filter 5 frame_five_sales ((1%Z, ()) :: four_items)
         four_items four_items four_items [("A", ())]) = Some rows
    ∧ l_Token_ID <$> rows = [1; 2; 3; 1; 4]%Z
    ∧ make_inter (l_Buyer <$> rows) (l_Token_ID <$> rows)
        (l_Price_diff <$> rows) = Some inter
    ∧ data_split inter [0; 0] = Some s
    ∧ (reindex (mapping_i (l_Token_ID <$> rows))
         (restrict (np_unique Z.le (l_Token_ID <$> rows))
            ((1%Z, ()) :: four_items))).*1
      = [Some 0; Some 0; Some 1; Some 2; Some 3]
    ∧ (reindex (mapping_i (l_Token_ID <$> rows))
         (restrict (np_unique Z.le (l_Token_ID <$> rows)) four_items)).*1
      = [Some 0; Some 1; Some 2; Some 3]
    ∧ feature_aligner (l_Token_ID <$> rows)
        ((1%Z, ()) :: four_items) four_items four_items four_items = None
    ∧ create_dataset 5 frame_five_sales ((1%Z, ()) :: four_items)
        four_items four_items four_items [("A", ())] [0; 0] = None.
Proof. eexists _, _, _. split_and!; by vm_compute. Qed.

(** ** The example frames under any generator *)

(** The frame of five sales runs to the end whatever the generator
    and its state: [inter] is [inter_five], two of its rows are held
    out, and the adjacency entry of the one user lists all five
    items. *)
Lemma five_sales_run `{RandomState G} (g : G) :
  ∃ a, create_dataset 5 frame_five_sales
         four_items four_items four_items four_items [("A", ())] g = Some a
     ∧ out_inter a = inter_five
     ∧ out_adj_dict a !! 4 = Some [0; 1; 2; 0; 3]
     ∧ length (random_idx_list (out_split a)) = 2
     ∧ length (train (out_split a)) = 3.
Proof.
  destruct (data_split_is_Some inter_five g 4) as [s Hs]; [by vm_compute|].
  assert (label_generator
            (threshold_filter 5 frame_five_sales four_items four_items
               four_items four_items [("A", ())])
          = Some [LabeledRow "A" 1 1000 1; LabeledRow "A" 2 1100 0;
                  LabeledRow "A" 3 500 0; LabeledRow "A" 1 1250 0;
                  LabeledRow "A" 4 750 0]) as Hrows by by vm_compute.
  eexists. split.
  { unfold create_dataset. rewrite Hrows. simpl.
    change (make_inter _ _ _) with (Some inter_five). simpl.
    rewrite Hs. simpl.
    change (feature_aligner _ _ _ _ _)
      with (Some (Aligned (vec := unit)
                    [(Some 0, ()); (Some 1, ()); (Some 2, ()); (Some 3, ())]
                    [(Some 0, ()); (Some 1, ()); (Some 2, ()); (Some 3, ())]
                    [(Some 0, ()); (Some 1, ()); (Some 2, ()); (Some 3, ())]
                    [(Some 0, ()); (Some 1, ()); (Some 2, ()); (Some 3, ())])).
    done. }
  simpl. apply data_split_Some in Hs as (g' & Hloop & Htrain & _).
  apply holdout_sample_Some in Hloop as (Hnd & Hlt & Hcount).
  assert (length (random_idx_list s) = 2) as Hheld.
  { rewrite <- (filter_all (λ i, user_at inter_five i = Some 4)
                  (random_idx_list s)); [by rewrite Hcount|].
    intros i Hi%Hlt. simpl in Hi.
    do 5 (destruct i as [|i]; [done|]). lia. }
  split_and!; [done|by vm_compute|done|].
  destruct (take_rows_is_Some inter_five (random_idx_list s) Hlt)
    as [held Hrows'].
  pose proof (np_delete_Permutation _ _ _ Hnd Hrows') as Hperm.
  apply Permutation_length in Hperm. rewrite length_app in Hperm.
  apply mapM_Some_1, Forall2_length in Hrows'.
  rewrite Htrain. simpl in Hperm. lia.
Qed.

(** * Further properties of the notebook *)

(** ** Grouped splits *)

Lemma first_seen_snoc col u :
  first_seen (col ++ [u])
    = if decide (u ∈ first_seen col) then first_seen col
      else first_seen col ++ [u].
Proof. unfold first_seen. by rewrite foldl_snoc. Qed.

Lemma elem_of_first_seen col u : u ∈ first_seen col ↔ u ∈ col.
Proof.
  induction col as [|v col IH] using rev_ind; [done|].
  rewrite first_seen_snoc, elem_of_app, list_elem_of_singleton.
  case_decide as Hv; rewrite ?elem_of_app, ?list_elem_of_singleton, IH;
    [|tauto].
  split; [tauto|]. intros [?| ->]; [done|]. by apply IH.
Qed.

Lemma first_seen_NoDup col : NoDup (first_seen col).
Proof.
  induction col as [|v col IH] using rev_ind; [constructor|].
  rewrite first_seen_snoc. case_decide as Hv; [done|].
  apply NoDup_app. split_and!; [done| |apply NoDup_singleton].
  intros u Hu ->%list_elem_of_singleton. done.
Qed.

Lemma dict_append_keys d k v :
  (dict_append d k v).*1 = if decide (k ∈ d.*1) then d.*1 else d.*1 ++ [k].
Proof.
  induction d as [|[k' vs] d IH]; csimpl; [done|].
  destruct (decide (k' = k)) as [->|Hne]; csimpl.
  - by rewrite decide_True by left.
  - rewrite IH. destruct (decide (k ∈ d.*1)) as [Hin|Hnin].
    + by rewrite decide_True by (by right).
    + rewrite decide_False; [done|].
      intros [?|?]%elem_of_cons; [congruence|done].
Qed.

(** The entries after one more row: the entry of the row's user gains
    the item, a user seen for the first time gets an entry at the end,
    and the other entries stay. *)
Lemma elem_of_dict_append d k v k' vs :
  NoDup d.*1 →
  (k', vs) ∈ dict_append d k v ↔
    (k' ≠ k ∧ (k', vs) ∈ d)
    ∨ (k' = k ∧ ∃ vs0, vs = vs0 ++ [v]
                       ∧ if decide (k ∈ d.*1) then (k, vs0) ∈ d else vs0 = []).
Proof.
  induction d as [|[k0 vs0] d IH]; intros Hnd; csimpl.
  { rewrite list_elem_of_singleton. split.
    - intros [= -> ->]. right. split; [done|]. by exists [].
    - intros [[_ []%not_elem_of_nil]|[-> (vs1 & -> & ->)]]. done. }
  rewrite fmap_cons in Hnd. apply NoDup_cons in Hnd as [Hk0 Hnd].
  specialize (IH Hnd). simpl in Hk0.
  assert (∀ ws, (k0, ws) ∈ d → False) as Hfresh.
  { intros ws Hws. apply Hk0, list_elem_of_fmap. by exists (k0, ws). }
  destruct (decide (k0 = k)) as [->|Hne].
  - clear IH. case_decide as Hin; [|destruct Hin; left].
    rewrite !elem_of_cons. split.
    + intros [[= -> ->]|Hvs].
      * right. split; [done|]. exists vs0. split; [done|by left].
      * left. split; [|by right]. intros ->. by eapply Hfresh.
    + intros [[Hk' [[= -> ->]|Hvs]]
             |[-> (vs1 & -> & [[= ->]|Hvs]%elem_of_cons)]];
        [done|by right|by left|]. by destruct (Hfresh vs1).
  - rewrite elem_of_cons, IH. clear IH. rewrite elem_of_cons.
    assert (k ∈ k0 :: d.*1 ↔ k ∈ d.*1) as Hiff
      by (rewrite elem_of_cons; intuition congruence).
    split.
    + intros [[= -> ->]|[[Hk' Hvs]|[-> (vs1 & -> & Hdec)]]].
      * left. split; [done|by left].
      * left. split; [done|by right].
      * right. split; [done|]. exists vs1. split; [done|].
        repeat case_decide; [by right|tauto..|done].
    + intros [[Hk' [[= -> ->]|Hvs]]|[-> (vs1 & -> & Hdec)]].
      * by left.
      * right. by left.
      * right. right. split; [done|]. exists vs1. split; [done|].
        repeat case_decide; [|tauto..|done].
        apply elem_of_cons in Hdec as [[= ? ?]|?]; [congruence|done].
Qed.

Lemma group_dict_snoc rows r :
  group_dict (rows ++ [r]) = dict_append (group_dict rows) (i_user r) (i_item r).
Proof. unfold group_dict. by rewrite foldl_snoc. Qed.

Lemma group_dict_keys rows : (group_dict rows).*1 = first_seen (i_user <$> rows).
Proof.
  induction rows as [|r rows IH] using rev_ind; [done|].
  rewrite group_dict_snoc, dict_append_keys, fmap_app.
  change (i_user <$> [r]) with [i_user r]. by rewrite first_seen_snoc, IH.
Qed.

Lemma elem_of_group_dict rows u items :
  (u, items) ∈ group_dict rows
  ↔ u ∈ i_user <$> rows ∧ items = i_item <$> filter (λ r, i_user r = u) rows.
Proof.
  revert u items. induction rows as [|r rows IH] using rev_ind; intros u items.
  { split; [by intros ?%not_elem_of_nil|by intros [?%not_elem_of_nil _]]. }
  rewrite group_dict_snoc, elem_of_dict_append
    by (rewrite group_dict_keys; apply first_seen_NoDup).
  rewrite group_dict_keys, fmap_app, filter_app, fmap_app, elem_of_app.
  rewrite filter_cons, filter_nil. csimpl. rewrite list_elem_of_singleton.
  destruct (decide (i_user r = u)) as [<-|Hne]; csimpl.
  - assert (i_user r ∉ first_seen (i_user <$> rows) →
            filter (λ r0, i_user r0 = i_user r) rows = []) as Hnone.
    { intros Hin. apply filter_none. intros r' Hr' Hu. apply Hin.
      apply elem_of_first_seen, list_elem_of_fmap. by exists r'. }
    split.
    + intros [[[] _]|[_ (vs0 & -> & Hdec)]]; [done|].
      split; [by right|]. f_equal. case_decide as Hin.
      * by apply IH in Hdec as [_ ->].
      * subst. by rewrite Hnone.
    + intros [_ ->]. right. split; [done|]. eexists. split; [done|].
      case_decide as Hin.
      * apply IH. split; [|done]. by apply elem_of_first_seen.
      * by rewrite Hnone.
  - rewrite app_nil_r, IH. split.
    + intros [[_ [? ->]]|[-> _]]; [|done]. split; [by left|done].
    + intros [[?|?] ->]; [|congruence]. left. split; [congruence|done].
Qed.

Lemma dict_append_pairs d k v :
  concat (array_pairs <$> grouped_array (dict_append d k v))
    ≡ₚ concat (array_pairs <$> grouped_array d) ++ [(k, v)].
Proof.
  unfold grouped_array.
  induction d as [|[k' vs] d IH]; csimpl; [done|].
  case_decide as Hk; csimpl.
  - subst. rewrite fmap_app. csimpl. rewrite <- !(assoc_L (++)).
    f_equiv. apply Permutation_app_comm.
  - by rewrite IH, (assoc_L (++)).
Qed.

Lemma dict_append_pooled d k v :
  pooled_items (dict_append d k v) ≡ₚ pooled_items d ++ [v].
Proof.
  unfold pooled_items.
  induction d as [|[k' vs] d IH]; csimpl; [done|].
  case_decide as Hk; csimpl.
  - rewrite <- !(assoc_L (++)). f_equiv. apply Permutation_app_comm.
  - by rewrite IH, (assoc_L (++)).
Qed.

(** X1.  The grouping loop of cells 14 and 17 with the lists of cells
    16 and 19: the dictionary has one entry for every user of the
    split, in the order in which the users first occur; the entry of a
    user is the sequence of the items of that user's rows, in row
    order and with repetitions, which is also the entry the adjacency
    loop builds; the saved array has for every user the list of the
    user ID followed by those items; read back as (user, item) pairs
    the array gives the pairs of the split up to order, and the pooled
    item list of cells 15 and 18 is the item column up to order. *)
Theorem grouped_split_lists_each_user_once (rows : list inter_row) :
  let d := group_dict rows in
  d.*1 = first_seen (i_user <$> rows)
  ∧ NoDup d.*1
  ∧ (∀ u items,
       (u, items) ∈ d
       ↔ u ∈ i_user <$> rows
         ∧ items = i_item <$> filter (λ r, i_user r = u) rows)
  ∧ (∀ u items, (u, items) ∈ d ↔ group_items rows !! u = Some items)
  ∧ (∀ l, l ∈ grouped_array d
          ↔ ∃ u, u ∈ i_user <$> rows
                 ∧ l = u :: (i_item <$> filter (λ r, i_user r = u) rows))
  ∧ concat (array_pairs <$> grouped_array d)
      ≡ₚ (λ r, (i_user r, i_item r)) <$> rows
  ∧ pooled_items d ≡ₚ i_item <$> rows.
Proof.
  intros d.
  assert (∀ u, u ∈ i_user <$> rows
               ↔ i_item <$> filter (λ r, i_user r = u) rows ≠ []) as Hne.
  { intros u. rewrite list_elem_of_fmap. split.
    - intros (r & -> & Hr) Hnil. apply fmap_nil_inv in Hnil.
      assert (r ∈ filter (λ r0, i_user r0 = i_user r) rows) as Hin
        by by apply list_elem_of_filter.
      rewrite Hnil in Hin. by apply not_elem_of_nil in Hin.
    - intros Hitems.
      destruct (filter (λ r, i_user r = u) rows) as [|r l] eqn:Hf; [done|].
      assert (r ∈ filter (λ r, i_user r = u) rows) as [Hu Hr]%list_elem_of_filter
        by (rewrite Hf; left).
      by exists r. }
  split_and!.
  - apply group_dict_keys.
  - unfold d. rewrite group_dict_keys. apply first_seen_NoDup.
  - apply elem_of_group_dict.
  - intros u items. unfold d. rewrite elem_of_group_dict, group_items_lookup.
    cbv zeta. rewrite Hne. case_decide as Hnil.
    + split; [by intros [[] _]|done].
    + split; [by intros [_ ->]|]. by intros [= <-].
  - intros l. unfold grouped_array. rewrite list_elem_of_fmap. split.
    + intros ([u items] & -> & [Hu ->]%elem_of_group_dict). by exists u.
    + intros (u & Hu & ->).
      exists (u, i_item <$> filter (λ r, i_user r = u) rows).
      split; [done|]. by apply elem_of_group_dict.
  - unfold d. clear Hne d.
    induction rows as [|r rows IH] using rev_ind; [done|].
    rewrite group_dict_snoc, dict_append_pairs, fmap_app. by f_equiv.
  - unfold d. clear Hne d.
    induction rows as [|r rows IH] using rev_ind; [done|].
    rewrite group_dict_snoc, dict_append_pooled, fmap_app. by f_equiv.
Qed.

(** ** The array [inter] *)

Lemma np_unique_interval (l : list nat) a n :
  (∀ v, v ∈ l ↔ a ≤ v < a + n) → np_unique Nat.le l = seq a n.
Proof.
  intros Hl. apply (StronglySorted_unique_strong (strict Nat.le)).
  - intros x1 x2 _ _ [? ?] [? ?]. lia.
  - apply (np_unique_sorted Nat.le).
  - apply StronglySorted_lt_seq.
  - apply NoDup_Permutation;
      [apply (np_unique_NoDup Nat.le)|apply NoDup_seq|].
    intros v. by rewrite (elem_of_np_unique Nat.le), elem_of_seq, Hl.
Qed.

(** No dictionary access of cell 8 raises: every entry of a column is
    a key of the dictionary built from that column. *)
Lemma mapM_mapping_is_Some `{Countable K} (R : relation K) `{!RelDecision R}
    `{!PartialOrder R, !Total R} (col : list K) offset :
  ∃ col_, mapM (λ k, mapping_loop (np_unique R col) offset !! k) col = Some col_
          ∧ ∀ v, v ∈ col_ ↔ offset ≤ v < offset + len_set col.
Proof.
  destruct (mapM_is_Some_2 (λ k, mapping_loop (np_unique R col) offset !! k) col)
    as [col_ Hcol].
  { apply Forall_forall. intros k Hk. by apply (mapping_unique_dom R). }
  exists col_. split; [done|]. apply mapM_Some_1 in Hcol. intros v.
  rewrite <- (mapping_unique_image R). split.
  - intros [i Hi]%list_elem_of_lookup.
    destruct (Forall2_lookup_r _ _ _ _ _ Hcol Hi) as (k & _ & Hk). eauto.
  - intros [k Hk].
    assert (k ∈ col) as [i Hi]%list_elem_of_lookup
      by (apply (mapping_unique_dom R col offset k); eauto).
    destruct (Forall2_lookup_l _ _ _ _ _ Hcol Hi) as (v' & Hv' & Hkv').
    rewrite Hk in Hkv'. simplify_eq. by eapply list_elem_of_lookup_2.
Qed.

(** X2.  Cell 8, step 3, on columns of one length: no dictionary
    access fails; [inter] has one row for every row of the frame, made
    of the mapped user, the mapped item and the label of that row; the
    item IDs are below [num_item] and the user IDs lie in
    [num_item, num_item + num_user); and every ID of either range
    occurs in its column of [inter]. *)
Theorem make_inter_rows_in_their_halves (user : list string) (item : list Z)
    (labels : list nat) :
  length user = length item → length labels = length item →
  ∃ inter,
    make_inter user item labels = Some inter
    ∧ length inter = length item
    ∧ (∀ i r, inter !! i = Some r →
         ∃ u k, user !! i = Some u ∧ item !! i = Some k
                ∧ mapping_u user item !! u = Some (i_user r)
                ∧ mapping_i item !! k = Some (i_item r)
                ∧ labels !! i = Some (i_label r)
                ∧ i_item r < len_set item
                ∧ len_set item ≤ i_user r < len_set item + len_set user)
    ∧ np_unique Nat.le (i_item <$> inter) = seq 0 (len_set item)
    ∧ np_unique Nat.le (i_user <$> inter) = seq (len_set item) (len_set user).
Proof.
  intros Hu Hl. unfold make_inter, mapping_u, mapping_i.
  destruct (mapM_mapping_is_Some str_le user (len_set item))
    as (user_ & Huser & Hur).
  destruct (mapM_mapping_is_Some Z.le item 0) as (item_ & Hitem & Hir).
  rewrite Huser, Hitem. simpl. eexists. split; [done|].
  apply mapM_Some_1 in Huser, Hitem.
  pose proof (Forall2_length _ _ _ Huser) as Hlu.
  pose proof (Forall2_length _ _ _ Hitem) as Hli.
  assert (∀ i r,
    zip_with (λ u il, InterRow u il.1 il.2) user_ (zip item_ labels) !! i
      = Some r →
    user_ !! i = Some (i_user r) ∧ item_ !! i = Some (i_item r)
    ∧ labels !! i = Some (i_label r)) as Hrow.
  { intros i r (u & [k l] & -> & Hui & Hkl)%lookup_zip_with_Some.
    apply lookup_zip_with_Some in Hkl as (k' & l' & [= <- <-] & Hk & Hl').
    done. }
  split_and!.
  - rewrite length_zip_with, length_zip. lia.
  - intros i r (Hui & Hki & Hli')%Hrow.
    destruct (Forall2_lookup_r _ _ _ _ _ Huser Hui) as (u & Hu' & Hmu).
    destruct (Forall2_lookup_r _ _ _ _ _ Hitem Hki) as (k & Hk' & Hmk).
    assert (i_item r ∈ item_) as Hin%Hir by by eapply list_elem_of_lookup_2.
    assert (i_user r ∈ user_) as Hin'%Hur by by eapply list_elem_of_lookup_2.
    exists u, k. split_and!; try done; lia.
  - rewrite inter_rows_columns by lia. apply np_unique_interval.
    intros v. rewrite Hir. lia.
  - assert (i_user <$> zip_with (λ u il, InterRow u il.1 il.2) user_
                         (zip item_ labels) = user_) as ->.
    { apply list_eq. intros i. rewrite list_lookup_fmap.
      destruct (zip_with _ _ _ !! i) as [r|] eqn:Hr; simpl.
      - by apply Hrow in Hr as (-> & _).
      - symmetry. apply lookup_ge_None. apply lookup_ge_None in Hr.
        rewrite length_zip_with, length_zip in Hr. lia. }
    by apply np_unique_interval.
Qed.

Lemma make_inter_rows_in_their_halves_witness :
  ∃ inter,
    make_inter ["B"; "A"; "B"] [5; 8; 6]%Z [0; 1; 0] = Some inter
    ∧ length inter = 3
    ∧ (∀ i r, inter !! i = Some r →
         ∃ u k, ["B"; "A"; "B"] !! i = Some u ∧ [5; 8; 6]%Z !! i = Some k
                ∧ mapping_u ["B"; "A"; "B"] [5; 8; 6]%Z !! u = Some (i_user r)
                ∧ mapping_i [5; 8; 6]%Z !! k = Some (i_item r)
                ∧ [0; 1; 0] !! i = Some (i_label r)
                ∧ i_item r < len_set [5; 8; 6]%Z
                ∧ len_set [5; 8; 6]%Z ≤ i_user r
                  < len_set [5; 8; 6]%Z + len_set ["B"; "A"; "B"])
    ∧ np_unique Nat.le (i_item <$> inter) = seq 0 (len_set [5; 8; 6]%Z)
    ∧ np_unique Nat.le (i_user <$> inter)
        = seq (len_set [5; 8; 6]%Z) (len_set ["B"; "A"; "B"]).
Proof.
  apply (make_inter_rows_in_their_halves ["B"; "A"; "B"] [5; 8; 6]%Z [0; 1; 0]);
    reflexivity.
Defined.

(** X3.  The dictionaries of cell 8 invert the sorted unique arrays
    they are built from: [mapping_i[k] = v] exactly when
    [item_unique[v] = k], and [mapping_u[u] = v] exactly when
    [user_unique[v - num_item] = u]. *)
Theorem mapping_inverts_unique_arrays (user : list string) (item : list Z) :
  (∀ k v, mapping_i item !! k = Some v ↔ np_unique Z.le item !! v = Some k)
  ∧ (∀ u v, mapping_u user item !! u = Some v
            ↔ len_set item ≤ v
              ∧ np_unique str_le user !! (v - len_set item) = Some u).
Proof.
  unfold mapping_i, mapping_u. split.
  - intros k v. rewrite (mapping_unique_lookup Z.le). split.
    + intros (i & Hi & ->). by rewrite Nat.add_0_r.
    + intros Hv. exists v. split; [done|lia].
  - intros u v. rewrite (mapping_unique_lookup str_le). split.
    + intros (i & Hi & ->). split; [lia|].
      by replace (i + len_set item - len_set item) with i by lia.
    + intros [Hle Hv]. eexists. split; [done|lia].
Qed.

(** ** Re-running the threshold filter *)

Section threshold_filter_again.
Context {vec uvec : Type}.
Implicit Types (df : list transaction_row).
Implicit Types (image text price transaction : table vec).
Implicit Types (df_feature : list (string * uvec)).

(** The cut keeps all rows of a buyer or none. *)
Lemma rows_of_buyer_user_cut CUT df u :
  rows_of_buyer u (user_cut CUT df)
    = if decide (CUT ≤ rows_of_buyer u df) then rows_of_buyer u df else 0.
Proof.
  rewrite user_cut_filter. unfold rows_of_buyer at 1.
  rewrite list_filter_filter. case_decide as Hcut.
  - change (rows_of_buyer u df) with (length (filter (λ r, Buyer r = u) df)).
    f_equal. apply filter_ext_elem.
    intros r Hr. split; [tauto|]. intros <-. done.
  - rewrite filter_none; [done|]. intros r Hr [<- ?]. done.
Qed.

Lemma user_cut_idempotent CUT df : user_cut CUT (user_cut CUT df) = user_cut CUT df.
Proof.
  rewrite (user_cut_filter CUT (user_cut CUT df)). apply filter_all.
  intros r Hr. rewrite rows_of_buyer_user_cut.
  rewrite user_cut_filter in Hr. apply list_elem_of_filter in Hr as [Hcut _].
  by rewrite decide_True.
Qed.

(** A frame made of feature-eligible rows passes cell 3 unchanged. *)
Lemma feature_filter_eligible df l image text price transaction df_feature :
  (∀ r, r ∈ l →
        r ∈ feature_filter df image text price transaction df_feature) →
  feature_filter l image text price transaction df_feature = l.
Proof.
  intros Hl.
  assert (∀ r, r ∈ l → Token_ID r ∈ indices image text price transaction
                       ∧ Buyer r ∈ df_feature.*1) as Hok.
  { intros r Hr%Hl. apply elem_of_feature_filter in Hr. tauto. }
  unfold feature_filter. rewrite (filter_all _ l) by (intros; by apply Hok).
  apply filter_all. intros; by apply Hok.
Qed.
End threshold_filter_again.

(** X4.  Cells 3 and 5 select rows without reordering them; a buyer
    keeps either all feature-eligible rows or none; and the two cells
    applied to their own result, with the same tables, change
    nothing. *)
Theorem threshold_filter_idempotent {vec uvec : Type} CUT
    (df : list transaction_row) (image text price transaction : table vec)
    (df_feature : list (string * uvec)) :
  let eligible := feature_filter df image text price transaction df_feature in
  let kept := threshold_filter CUT df image text price transaction df_feature in
  kept `sublist_of` df
  ∧ (∀ u, rows_of_buyer u kept
          = if decide (CUT ≤ rows_of_buyer u eligible)
            then rows_of_buyer u eligible else 0)
  ∧ threshold_filter CUT kept image text price transaction df_feature = kept.
Proof.
  intros eligible kept. split_and!.
  - unfold kept, threshold_filter. rewrite user_cut_filter.
    etrans; [apply sublist_filter|]. unfold feature_filter.
    etrans; apply sublist_filter.
  - intros u. apply rows_of_buyer_user_cut.
  - subst kept eligible. unfold threshold_filter.
    rewrite (feature_filter_eligible df); [apply user_cut_idempotent|].
    intros r Hr. rewrite user_cut_filter in Hr.
    by apply list_elem_of_filter in Hr as [_ Hr].
Qed.

(** ** Rows without the marker in the run *)




(** ** Errors and groups in the label generator *)

Lemma substring_0_length n s : substring n 0 s = "".
Proof.
  revert s. induction n as [|n IH]; intros [|c s]; simpl; done.
Qed.

Lemma slice_2_m1_short t : String.length t ≤ 3 → slice_2_m1 t = "".
Proof.
  intros Ht. unfold slice_2_m1.
  replace (String.length t - 3) with 0 by lia. apply substring_0_length.
Qed.

(** X5.  One row that carries the marker and cannot be parsed stops
    cell 6, wherever it stands in the frame: a 'Price' with fewer than
    three space-separated pieces (IndexError), or with a third piece of
    at most three characters, of which nothing is left for the float
    conversion (ValueError). *)
Theorem label_generator_aborts_on_malformed_price
    (df : list transaction_row) (r : transaction_row) :
  r ∈ df → contains_dollar (Price r) = true →
  length (split_space (Price r)) < 3
  ∨ (∃ t, split_space (Price r) !! 2 = Some t ∧ String.length t ≤ 3) →
  label_generator df = None.
Proof.
  intros Hr Hd Hbad. unfold label_generator.
  assert (parse_price (Price r) = None) as Hparse.
  { unfold parse_price, price_text. destruct Hbad as [Hlen|(t & -> & Ht)].
    - by rewrite lookup_ge_None_2 by lia.
    - simpl. by rewrite slice_2_m1_short. }
  set (df' := filter _ df).
  rewrite (mapM_None_2 parse_price (Price <$> df')); [done|].
  apply Exists_exists. exists (Price r). split; [|done].
  apply list_elem_of_fmap. exists r. split; [done|].
  by apply list_elem_of_filter.
Qed.

Lemma label_generator_aborts_on_malformed_price_witness :
  label_generator [sale "A" 1 "10.00"; TransactionRow "A" 2 "$11.00";
                   sale "A" 3 "5.00"] = None.
Proof.
  apply (label_generator_aborts_on_malformed_price _
           (TransactionRow "A" 2 "$11.00"));
    [by apply (bool_decide_unpack _)|reflexivity|left; vm_compute; lia].
Defined.

Lemma Price_diff_cons t p rest :
  Price_diff ((t, p) :: rest)
    = (match next_price t rest with
       | Some q => if decide (p < q)%Z then 1 else 0
       | None => 0
       end) :: Price_diff rest.
Proof.
  unfold Price_diff. csimpl. f_equal.
  destruct (next_price t rest) as [q|]; simpl; [|done].
  unfold threshold_label. repeat case_decide; lia.
Qed.

Lemma next_price_filter t rest :
  next_price t (filter (λ r, r.1 = t) rest) = next_price t rest.
Proof.
  induction rest as [|[t' p] rest IH]; [done|].
  rewrite filter_cons. simpl. destruct (decide (t' = t)) as [->|Hne]; simpl.
  - by rewrite decide_True.
  - done.
Qed.

Lemma next_price_same_item t (prices : list Z) :
  next_price t ((λ p, (t, p)) <$> prices) = head prices.
Proof. destruct prices; simpl; [done|]. by rewrite decide_True. Qed.

(** X6.  The labels are computed inside the item groups: the labels of
    the rows of one item are the labels that the rows of that item
    alone would get, whatever other rows stand between them; and in the
    rows of one item each label compares the price with the price on
    the next row. *)
Theorem labels_computed_within_item_group :
  (∀ (rows : list (Z * Z)) (t : Z),
     (filter (λ rl, rl.1.1 = t) (zip rows (Price_diff rows))).*2
       = Price_diff (filter (λ r, r.1 = t) rows))
  ∧ (∀ (t : Z) (prices : list Z) i p,
       prices !! i = Some p →
       Price_diff ((λ p, (t, p)) <$> prices) !! i
         = Some (match prices !! S i with
                 | Some q => if decide (p < q)%Z then 1 else 0
                 | None => 0
                 end)).
Proof.
  split.
  - intros rows t. induction rows as [|[t' p] rows IH]; [done|].
    rewrite Price_diff_cons. csimpl. rewrite !filter_cons. simpl.
    destruct (decide (t' = t)) as [->|Hne]; csimpl; [|done].
    by rewrite Price_diff_cons, next_price_filter, IH.
  - intros t prices i p Hi.
    rewrite (Price_diff_lookup _ _ t p) by (by rewrite list_lookup_fmap, Hi).
    rewrite <- fmap_drop, next_price_same_item.
    by rewrite head_lookup, lookup_drop, Nat.add_0_r.
Qed.

Lemma labels_computed_within_item_group_witness :
  Price_diff ((λ p, (7%Z, p)) <$> [10; 8; 9]%Z) !! 1 = Some 1.
Proof.
  apply (proj2 labels_computed_within_item_group 7%Z [10; 8; 9]%Z 1 8%Z).
  reflexivity.
Defined.

(** ** Sizes of the split *)

Section split_sizes.
Context `{RandomState G}.
Implicit Types (inter : list inter_row) (g : G).

Lemma picks_length inter users picks :
  Forall2 (picked inter) users picks →
  length (concat picks)
    = sum_list ((λ u, num_sample (length (filter (λ r, i_user r = u) inter)))
                  <$> users).
Proof.
  induction 1 as [|u pick users picks [Hlen _] _ IH]; [done|].
  csimpl. by rewrite length_app, Hlen, IH.
Qed.

Lemma holdout_sample_length inter g idxs g' :
  holdout_sample inter g = Some (idxs, g') → length idxs = held_out_size inter.
Proof.
  intros (picks & -> & Hpicks)%holdout_loop_Some. simpl.
  by apply picks_length.
Qed.

Lemma half_sizes n : n - (n + 1) / 2 = n / 2.
Proof.
  pose proof (Nat.div_mod_eq (n + 1) 2). pose proof (Nat.div_mod_eq n 2).
  pose proof (Nat.mod_upper_bound (n + 1) 2).
  pose proof (Nat.mod_upper_bound n 2). lia.
Qed.

Lemma train_test_split_lengths (arr : list nat) random_state tr te :
  train_test_split arr random_state = Some (tr, te) →
  length tr = length arr / 2 ∧ length te = (length arr + 1) / 2.
Proof.
  intros Hsplit.
  pose proof (train_test_split_Some _ _ _ _ Hsplit) as Hperm.
  apply Permutation_length in Hperm. rewrite length_app in Hperm.
  pose proof (half_sizes (length arr)) as Hhalf.
  pose proof (Nat.div_mod_eq (length arr + 1) 2) as Hdiv.
  pose proof (Nat.mod_upper_bound (length arr + 1) 2) as Hmod.
  revert Hsplit. unfold train_test_split.
  remember ((length arr + 1) / 2) as n_test eqn:Hn_test.
  remember (length arr / 2) as n_half eqn:Hn_half.
  case_decide as Hn; [done|].
  pose proof (permutation_Permutation (seed random_state) (length arr)) as Hp.
  apply Permutation_length in Hp. rewrite length_seq in Hp.
  destruct (take_rows arr (take _ (drop _ _))) as [tr'|]; [|done].
  destruct (take_rows arr (take _ _)) as [te'|] eqn:Hte; [|done].
  intros [= -> ->].
  apply mapM_Some_1, Forall2_length in Hte. rewrite length_take in Hte. lia.
Qed.

Lemma np_delete_length {A} (arr : list A) idx :
  NoDup idx → (∀ i, i ∈ idx → i < length arr) →
  length (np_delete arr idx) = length arr - length idx.
Proof.
  intros Hnd Hlt. destruct (take_rows_is_Some arr idx Hlt) as [held Hheld].
  pose proof (np_delete_Permutation _ _ _ Hnd Hheld) as Hperm.
  apply Permutation_length in Hperm. rewrite length_app in Hperm.
  apply mapM_Some_1, Forall2_length in Hheld. lia.
Qed.

(** Cell 12 stops exactly when fewer than two positions are held
    out. *)
Lemma data_split_None inter g :
  data_split inter g = None ↔ held_out_size inter < 2.
Proof.
  unfold data_split.
  destruct (holdout_loop_is_Some inter
              (np_unique Nat.le (i_user <$> inter)) g []) as [[idxs g'] Hloop].
  fold (holdout_sample inter g) in Hloop. rewrite Hloop. simpl.
  rewrite <- (holdout_sample_length _ _ _ _ Hloop).
  apply holdout_sample_Some in Hloop as (_ & Hlt & _).
  destruct (train_test_split idxs 42) as [[v t]|] eqn:Hvt; simpl.
  - assert (¬ length idxs < 2) as Hlen
      by (rewrite <- (train_test_split_None idxs 42), Hvt; done).
    apply train_test_split_Some in Hvt.
    destruct (take_rows_is_Some inter v) as [rv ->].
    { intros i Hi. apply Hlt. rewrite <- Hvt. apply elem_of_app. by left. }
    destruct (take_rows_is_Some inter t) as [rt ->].
    { intros i Hi. apply Hlt. rewrite <- Hvt. apply elem_of_app. by right. }
    simpl. split; [done|lia].
  - by apply train_test_split_None in Hvt.
Qed.

(** The rows read at a list of positions, counted by user. *)
Lemma take_rows_count inter idx held u :
  take_rows inter idx = Some held →
  length (filter (λ r, i_user r = u) held)
    = length (filter (λ i, user_at inter i = Some u) idx).
Proof.
  intros Hheld%take_rows_Some.
  induction Hheld as [|i r idx held Hi _ IH]; [done|].
  assert (user_at inter i = Some (i_user r)) as Hat
    by (unfold user_at; by rewrite Hi).
  rewrite !filter_cons.
  repeat case_decide; simpl; rewrite ?IH; try done; congruence.
Qed.

Lemma num_sample_lt n : 0 < n → num_sample n < n.
Proof. pose proof (num_sample_floor n). lia. Qed.
End split_sizes.

(** X7.  The sizes of the split are fixed by the row counts of the
    users and not by the generator: the loop holds out
    [held_out_size inter] positions, the sum over the users of
    int(0.4 * n_u); [valid] gets the lower and [test] the upper half of
    them and [train] the other rows; and cell 12 raises (in
    [train_test_split]) exactly when fewer than two positions are held
    out. *)
Theorem split_sizes_fixed_by_row_counts `{RandomState G}
    (inter : list inter_row) (g : G) :
  let h := held_out_size inter in
  (data_split inter g = None ↔ h < 2)
  ∧ ∀ s, data_split inter g = Some s →
      length (random_idx_list s) = h
      ∧ length (train s) = length inter - h
      ∧ length (valid s) = h / 2
      ∧ length (test s) = (h + 1) / 2.
Proof.
  intros h. split; [apply data_split_None|].
  intros s (g' & Hloop & Htrain & _ & Hvt & Hv & Ht)%data_split_Some.
  pose proof (holdout_sample_length _ _ _ _ Hloop) as Hlen. fold h in Hlen.
  apply holdout_sample_Some in Hloop as (Hnd & Hlt & _).
  apply train_test_split_lengths in Hvt as [Hlv Hlt'].
  apply mapM_Some_1, Forall2_length in Hv, Ht.
  rewrite Hlen in Hlv, Hlt'.
  split_and!; [done| |congruence..].
  rewrite Htrain, np_delete_length by done. lia.
Qed.

(** X8.  In a completed split [train] keeps the rows of [inter] in
    their order; of the n_u rows of a user, n_u - int(0.4 * n_u) are in
    [train] and int(0.4 * n_u) in [valid] and [test] together; so every
    user of [inter] has a row in [train]. *)
Theorem train_keeps_order_and_every_user `{RandomState G}
    (inter : list inter_row) (g : G) (s : split_result) :
  data_split inter g = Some s →
  train s `sublist_of` inter
  ∧ ∀ u,
      let n_u := length (filter (λ r, i_user r = u) inter) in
      length (filter (λ r, i_user r = u) (train s)) = n_u - num_sample n_u
      ∧ length (filter (λ r, i_user r = u) (valid s))
        + length (filter (λ r, i_user r = u) (test s)) = num_sample n_u
      ∧ (u ∈ i_user <$> inter → u ∈ i_user <$> train s).
Proof.
  intros Hs. pose proof (data_split_Permutation _ _ _ Hs) as Hperm.
  apply data_split_Some in Hs as (g' & Hloop & Htrain & _ & Hvt & Hv & Ht).
  apply holdout_sample_Some in Hloop as (_ & _ & Hcount).
  apply train_test_split_Some in Hvt. split.
  - rewrite Htrain. unfold np_delete.
    rewrite <- (imap_pair_snd inter) at 2. apply fmap_sublist, sublist_filter.
  - intros u n_u.
    assert (length (filter (λ r, i_user r = u) (valid s))
            + length (filter (λ r, i_user r = u) (test s)) = num_sample n_u)
      as Hheld.
    { rewrite (take_rows_count _ _ _ u Hv), (take_rows_count _ _ _ u Ht).
      by rewrite <- length_app, <- filter_app, Hvt, Hcount. }
    assert (length (filter (λ r, i_user r = u) (train s)) = n_u - num_sample n_u)
      as Htr.
    { unfold n_u at 1. rewrite <- Hperm, !filter_app, !length_app. lia. }
    split_and!; [done..|].
    intros (r & -> & Hr)%list_elem_of_fmap.
    assert (0 < n_u) as Hpos.
    { unfold n_u.
      assert (r ∈ filter (λ r0, i_user r0 = i_user r) inter) as Hin
        by by apply list_elem_of_filter.
      destruct (filter _ inter); [by apply not_elem_of_nil in Hin|simpl; lia]. }
    pose proof (num_sample_lt n_u Hpos).
    destruct (filter (λ r0, i_user r0 = i_user r) (train s)) as [|r' l] eqn:Hf;
      [simpl in Htr; lia|].
    assert (r' ∈ filter (λ r0, i_user r0 = i_user r) (train s))
      as [<- Hr']%list_elem_of_filter by (rewrite Hf; left).
    apply list_elem_of_fmap. by exists r'.
Qed.

Lemma train_keeps_order_and_every_user_witness :
  let s := SplitResult [0; 1] [InterRow 4 2 0; InterRow 4 0 0; InterRow 4 3 0]
             (list_to_set (seq 0 5) ∖ list_to_set [0; 1]) [1] [0]
             [InterRow 4 1 0] [InterRow 4 0 1] in
  train s `sublist_of` inter_five
  ∧ ∀ u,
      let n_u := length (filter (λ r, i_user r = u) inter_five) in
      length (filter (λ r, i_user r = u) (train s)) = n_u - num_sample n_u
      ∧ length (filter (λ r, i_user r = u) (valid s))
        + length (filter (λ r, i_user r = u) (test s)) = num_sample n_u
      ∧ (u ∈ i_user <$> inter_five → u ∈ i_user <$> train s).
Proof.
  apply (train_keeps_order_and_every_user inter_five [0; 0]). reflexivity.
Defined.

(** ** The artifacts of a completed run *)

(** The two ID columns of [inter] take exactly the values of their
    ranges. *)
Lemma make_inter_columns (user : list string) (item : list Z) labels inter :
  length user = length item → length labels = length item →
  make_inter user item labels = Some inter →
  (∀ v, v ∈ i_user <$> inter
        ↔ len_set item ≤ v < len_set item + len_set user)
  ∧ (∀ v, v ∈ i_item <$> inter ↔ v < len_set item).
Proof.
  intros Hu Hl. unfold make_inter, mapping_u, mapping_i.
  destruct (mapM_mapping_is_Some str_le user (len_set item))
    as (user_ & Huser & Hur).
  destruct (mapM_mapping_is_Some Z.le item 0) as (item_ & Hitem & Hir).
  rewrite Huser, Hitem. simpl. intros [= <-].
  apply mapM_Some_1, Forall2_length in Huser, Hitem.
  rewrite inter_rows_columns by lia. split; [|intros v; rewrite Hir; lia].
  assert (i_user <$> zip_with (λ u il, InterRow u il.1 il.2) user_
                       (zip item_ labels) = user_) as ->; [|done].
  clear Hur Hir. revert item_ labels user item Hu Hl Huser Hitem.
  induction user_ as [|u user_ IH];
    intros [|k item_] [|l labels] [|? user] [|? item] ????;
    simplify_eq/=; [done|].
  f_equal. by eapply (IH _ _ user item).
Qed.

Lemma create_dataset_counts {vec uvec : Type} `{RandomState G} CUT df
    (image text price transaction : table vec)
    (df_feature : list (string * uvec)) (g : G) (a : @artifacts vec) :
  create_dataset CUT df image text price transaction df_feature g = Some a →
  (∀ v, v ∈ i_user <$> out_inter a
        ↔ out_num_item a ≤ v < out_num_item a + out_num_user a)
  ∧ (∀ v, v ∈ i_item <$> out_inter a ↔ v < out_num_item a)
  ∧ out_adj_dict a = adj_dict (out_inter a).
Proof.
  unfold create_dataset. intros Ha.
  destruct (label_generator _) as [rows|] eqn:Hrows; [|done]. simpl in Ha.
  destruct (make_inter _ _ _) as [inter|] eqn:Hinter; [|done]. simpl in Ha.
  destruct (data_split inter g) as [s|]; [|done]. simpl in Ha.
  destruct (feature_aligner _ _ _ _ _) as [feat|]; [|done].
  injection Ha as <-. simpl.
  apply make_inter_columns in Hinter as [? ?]; [done|by rewrite !length_fmap..].
Qed.

(** X9.  The adjacency dictionary of a completed run is bipartite and
    covers every user: its keys are exactly the user IDs
    [num_item, num_item + num_user), no entry is empty, and every entry
    holds item IDs below [num_item] only. *)
Theorem adjacency_keys_users_values_items {vec uvec : Type} `{RandomState G}
    CUT df (image text price transaction : table vec)
    (df_feature : list (string * uvec)) (g : G) (a : @artifacts vec) :
  create_dataset CUT df image text price transaction df_feature g = Some a →
  (∀ u, is_Some (out_adj_dict a !! u)
        ↔ out_num_item a ≤ u < out_num_item a + out_num_user a)
  ∧ ∀ u items, out_adj_dict a !! u = Some items →
      items ≠ [] ∧ Forall (λ i, i < out_num_item a) items.
Proof.
  intros (Husers & Hitems & ->)%create_dataset_counts.
  assert (∀ u items, adj_dict (out_inter a) !! u = Some items ↔
            items ≠ []
            ∧ items = i_item <$> filter (λ r, i_user r = u) (out_inter a))
    as Hentry.
  { intros u items. unfold adj_dict. rewrite group_items_lookup. cbv zeta.
    case_decide as Hnil.
    - split; [done|]. intros [? ->]. done.
    - split; [by intros [= <-]|by intros [_ ->]]. }
  split.
  - intros u. rewrite <- Husers, list_elem_of_fmap. unfold is_Some.
    setoid_rewrite Hentry. split.
    + intros (items & Hne & ->).
      destruct (filter (λ r, i_user r = u) (out_inter a)) as [|r l] eqn:Hf;
        [done|].
      assert (r ∈ filter (λ r, i_user r = u) (out_inter a))
        as [Hu Hr]%list_elem_of_filter by (rewrite Hf; left).
      by exists r.
    + intros (r & -> & Hr). eexists. split; [|done].
      intros Hnil%fmap_nil_inv.
      assert (r ∈ filter (λ r0, i_user r0 = i_user r) (out_inter a)) as Hin
        by by apply list_elem_of_filter.
      rewrite Hnil in Hin. by apply not_elem_of_nil in Hin.
  - intros u items [Hne ->]%Hentry. split; [done|].
    apply Forall_forall. intros i (r & -> & [_ Hr]%list_elem_of_filter)%list_elem_of_fmap.
    apply Hitems, list_elem_of_fmap. by exists r.
Qed.

Lemma adjacency_keys_users_values_items_witness :
  ∃ a, create_dataset 5 frame_five_sales
         four_items four_items four_items four_items [("A", ())] [0; 0]
       = Some a
     ∧ (∀ u, is_Some (out_adj_dict a !! u)
             ↔ out_num_item a ≤ u < out_num_item a + out_num_user a)
     ∧ ∀ u items, out_adj_dict a !! u = Some items →
         items ≠ [] ∧ Forall (λ i, i < out_num_item a) items.
Proof.
  eexists. split; [by vm_compute|].
  eapply (adjacency_keys_users_values_items 5 frame_five_sales
            four_items four_items four_items four_items [("A", ())] [0; 0]).
  by vm_compute.
Defined.

Lemma make_inter_is_Some (user : list string) (item : list Z) labels :
  is_Some (make_inter user item labels).
Proof.
  unfold make_inter, mapping_u, mapping_i.
  destruct (mapM_mapping_is_Some str_le user (len_set item))
    as (user_ & -> & _).
  destruct (mapM_mapping_is_Some Z.le item 0) as (item_ & -> & _).
  done.
Qed.

(** X10.  Once cell 6 has returned the labelled frame, and with
    item-feature tables in which no token ID is repeated, the cells
    8, 12, 22, 24 and 25 raise in one place only: the index mapper
    builds [inter], the assertions of cell 25 pass, and
    [train_test_split] in cell 12 raises exactly when fewer than two
    rows are held out, whatever the generator and its state.  (The
    cells that write files and the scaling of the user features are
    not part of [create_dataset].) *)
Theorem cells_after_labels_raise_only_in_split {vec uvec : Type}
    `{RandomState G} CUT df (image text price transaction : table vec)
    (df_feature : list (string * uvec)) rows :
  NoDup (index image) → NoDup (index text) →
  NoDup (index price) → NoDup (index transaction) →
  label_generator
    (threshold_filter CUT df image text price transaction df_feature)
    = Some rows →
  ∃ inter al,
    make_inter (l_Buyer <$> rows) (l_Token_ID <$> rows)
      (l_Price_diff <$> rows) = Some inter
    ∧ feature_aligner (l_Token_ID <$> rows) image text price transaction
      = Some al
    ∧ ∀ g : G,
        (data_split inter g = None ↔ held_out_size inter < 2)
        ∧ (is_Some (create_dataset CUT df image text price transaction
                      df_feature g)
           ↔ 2 ≤ held_out_size inter).
Proof.
  intros H1 H2 H3 H4 Hrows.
  destruct (make_inter_is_Some (l_Buyer <$> rows) (l_Token_ID <$> rows)
              (l_Price_diff <$> rows)) as [inter Hinter].
  destruct (feature_aligner_is_Some (l_Token_ID <$> rows)
              image text price transaction) as (al & Hal & _); [done..| |].
  { intros k. by eapply label_generator_tokens. }
  exists inter, al. split_and!; [done..|]. intros g.
  split; [apply data_split_None|].
  unfold create_dataset. rewrite Hrows. simpl. rewrite Hinter. simpl.
  destruct (data_split inter g) as [s|] eqn:Hs; simpl.
  - rewrite Hal. simpl. split; [|done]. intros _.
    destruct (decide (held_out_size inter < 2)) as [Hlt|]; [|lia].
    apply (data_split_None inter g) in Hlt. congruence.
  - apply data_split_None in Hs. split; [by intros [? ?]|lia].
Qed.

Lemma cells_after_labels_raise_only_in_split_witness :
  ∃ rows inter,
    label_generator
      (threshold_filter 5 frame_five_sales
         four_items four_items four_items four_items [("A", ())])
      = Some rows
    ∧ make_inter (l_Buyer <$> rows) (l_Token_ID <$> rows)
        (l_Price_diff <$> rows) = Some inter
    ∧ held_out_size inter = 2
    ∧ is_Some (create_dataset 5 frame_five_sales
                 four_items four_items four_items four_items [("A", ())]
                 [0; 0]).
Proof.
  eexists _, _. split_and!; [by vm_compute..|].
  destruct (cells_after_labels_raise_only_in_split (G := list nat)
              5 frame_five_sales
              four_items four_items four_items four_items [("A", ())]
              [LabeledRow "A" 1 1000 1; LabeledRow "A" 2 1100 0;
               LabeledRow "A" 3 500 0; LabeledRow "A" 1 1250 0;
               LabeledRow "A" 4 750 0])
    as (inter & al & Hinter & _ & Hrun);
    [by apply (bool_decide_unpack _)..|by vm_compute|].
  apply (Hrun [0; 0]).
  vm_compute in Hinter. injection Hinter as <-. by vm_compute.
Defined.


(** ** Item-feature tables after alignment *)

Section aligned_tables.
Context {vec : Type}.
Implicit Types t : table vec.

Lemma StronglySorted_filter {A} (R : relation A) (P : A → Prop)
    `{!∀ x, Decision (P x)} (l : list A) :
  StronglySorted R l → StronglySorted R (filter P l).
Proof.
  induction 1 as [|x l Hs IH Hx]; [constructor|].
  rewrite filter_cons. case_decide; [|done].
  constructor; [done|]. apply Forall_forall.
  intros y [_ Hy]%list_elem_of_filter. by eapply Forall_forall in Hx.
Qed.

Lemma StronglySorted_lt_strict (l : list Z) :
  StronglySorted Z.lt l → StronglySorted (strict Z.le) l.
Proof.
  induction 1 as [|x l Hs IH Hx]; constructor; [done|].
  eapply Forall_impl; [done|]. intros y ?. split; lia.
Qed.

(** Permuted arrays sort to the same array. *)
Lemma np_sort_proper (ks ks' : list (option nat)) :
  ks ≡ₚ ks' → np_sort ks = np_sort ks'.
Proof.
  intros Hks. unfold np_sort. f_equal.
  - f_equal. apply (Sorted_unique Nat.le).
    + apply (Sorted_merge_sort Nat.le).
    + apply (Sorted_merge_sort Nat.le).
    + by rewrite !merge_sort_Permutation, Hks.
  - induction Hks as [|x ks ks' _ IH|x y ks|ks1 ks2 ks3 _ IH1 _ IH2];
      [done| | |congruence].
    + rewrite !filter_cons. case_decide; by rewrite IH.
    + rewrite !filter_cons. repeat case_decide; congruence.
Qed.

Lemma restrict_Permutation item_unique t t' :
  t ≡ₚ t' → restrict item_unique t ≡ₚ restrict item_unique t'.
Proof. intros Ht. unfold restrict. by rewrite Ht. Qed.

Lemma aligned_index_Permutation (item : list Z) t t' :
  t ≡ₚ t' →
  np_sort (reindex (mapping_i item) (restrict (np_unique Z.le item) t)).*1
  = np_sort (reindex (mapping_i item) (restrict (np_unique Z.le item) t')).*1.
Proof.
  intros Ht. apply np_sort_proper. unfold reindex.
  by rewrite (restrict_Permutation _ t t').
Qed.

(** The new key of a kept row is the rank of its token ID among the
    items; its payload is untouched. *)
Lemma reindex_restrict_rows (item : list Z) t :
  Forall2 (λ kv kv', kv'.2 = kv.2
             ∧ ∃ j, kv'.1 = Some j ∧ np_unique Z.le item !! j = Some kv.1)
    (filter (λ kv, kv.1 ∈ item) t)
    (reindex (mapping_i item) (restrict (np_unique Z.le item) t)).
Proof.
  unfold restrict.
  rewrite (filter_ext_elem (λ kv, kv.1 ∈ np_unique Z.le item)
             (λ kv : Z * vec, kv.1 ∈ item) t)
    by (intros; apply (elem_of_np_unique Z.le)).
  unfold reindex. apply Forall2_fmap_r, Forall_Forall2_diag, Forall_forall.
  intros [k v] [Hk _]%list_elem_of_filter. simpl in *. split; [done|].
  destruct (proj2 (mapping_unique_dom Z.le item 0 k) Hk) as [j Hj].
  exists j. split; [done|].
  apply (mapping_unique_lookup Z.le) in Hj as (i & Hi & ->).
  by rewrite Nat.add_0_r.
Qed.

(** A table in ascending order of token ID with a row for every item
    ends up with the keys [0, num_item) in this order. *)
Lemma reindex_restrict_ascending (item : list Z) t :
  StronglySorted Z.lt (index t) → (∀ k, k ∈ item → k ∈ index t) →
  (reindex (mapping_i item) (restrict (np_unique Z.le item) t)).*1
  = Some <$> seq 0 (len_set item).
Proof.
  intros Hs Hitem. rewrite reindex_index, restrict_index.
  assert (filter (λ k, k ∈ np_unique Z.le item) (index t)
          = np_unique Z.le item) as ->.
  { apply (StronglySorted_unique_strong (strict Z.le)).
    - intros x1 x2 _ _ [? ?] [? ?]. lia.
    - by apply StronglySorted_filter, StronglySorted_lt_strict.
    - apply (np_unique_sorted Z.le).
    - apply NoDup_Permutation.
      + apply NoDup_filter.
        by apply (strictly_sorted_NoDup Z.le), StronglySorted_lt_strict.
      + apply (np_unique_NoDup Z.le).
      + intros k. rewrite list_elem_of_filter, (elem_of_np_unique Z.le).
        specialize (Hitem k). tauto. }
  unfold mapping_i.
  rewrite mapping_on_unique by apply (np_unique_NoDup Z.le).
  by rewrite (np_unique_length Z.le).
Qed.

Lemma feature_aligner_tables (item : list Z) image text price transaction al :
  feature_aligner item image text price transaction = Some al →
  let new t := reindex (mapping_i item) (restrict (np_unique Z.le item) t) in
  a_image al = new image ∧ a_text al = new text
  ∧ a_price al = new price ∧ a_transaction al = new transaction.
Proof.
  unfold feature_aligner. cbv zeta. intros Hal.
  repeat case_match; by simplify_eq.
Qed.

(** X11.  The feature arrays that are saved keep the rows of their
    table whose token ID is an item, in the order of the table: each
    row keeps its features and gets as key the rank of its token ID
    among the items.  Row [j] of a saved array is item [j] when the
    table is in ascending order of token ID and has every item. *)
Theorem aligned_rows_keep_table_order (item : list Z)
    image text price transaction (al : @aligned vec) :
  feature_aligner item image text price transaction = Some al →
  let ranked t (t' : list (option nat * vec)) :=
    Forall2 (λ kv kv', kv'.2 = kv.2
               ∧ ∃ j, kv'.1 = Some j ∧ np_unique Z.le item !! j = Some kv.1)
      (filter (λ kv, kv.1 ∈ item) t) t' in
  let ascending t (t' : list (option nat * vec)) :=
    StronglySorted Z.lt (index t) → (∀ k, k ∈ item → k ∈ index t) →
    t'.*1 = Some <$> seq 0 (len_set item) in
  (ranked image (a_image al) ∧ ranked text (a_text al)
   ∧ ranked price (a_price al) ∧ ranked transaction (a_transaction al))
  ∧ (ascending image (a_image al) ∧ ascending text (a_text al)
     ∧ ascending price (a_price al)
     ∧ ascending transaction (a_transaction al)).
Proof.
  intros (-> & -> & -> & ->)%feature_aligner_tables ranked ascending.
  split.
  - split_and!; apply reindex_restrict_rows.
  - split_and!; intros ??; by apply reindex_restrict_ascending.
Qed.

(** X12.  The assertions of the last cell look at the sorted keys
    only: rearranging the rows of the four tables does not change
    whether they pass. *)
Theorem assertions_blind_to_row_order (item : list Z)
    image text price transaction image' text' price' transaction' :
  image ≡ₚ image' → text ≡ₚ text' →
  price ≡ₚ price' → transaction ≡ₚ transaction' →
  is_Some (feature_aligner (vec := vec) item image text price transaction)
  ↔ is_Some (feature_aligner item image' text' price' transaction').
Proof.
  intros H1 H2 H3 H4. unfold feature_aligner. cbv zeta.
  rewrite (aligned_index_Permutation item image image' H1),
    (aligned_index_Permutation item text text' H2),
    (aligned_index_Permutation item price price' H3),
    (aligned_index_Permutation item transaction transaction' H4).
  repeat case_match; split; intros [? ?]; by simplify_eq.
Qed.
End aligned_tables.

Lemma aligned_rows_keep_table_order_witness :
  ∃ al : @aligned unit,
    let item := [1; 2; 3; 1; 4]%Z in
    feature_aligner item four_items four_items four_items four_items = Some al
    ∧ (a_image al).*1 = Some <$> seq 0 (len_set item).
Proof.
  eexists. cbv zeta. split; [by vm_compute|].
  eapply (aligned_rows_keep_table_order [1; 2; 3; 1; 4]%Z
            four_items four_items four_items four_items).
  - by vm_compute.
  - repeat constructor.
  - intros k Hk. by repeat (apply elem_of_cons in Hk as [->|Hk];
      [vm_compute; set_solver|]); apply elem_of_nil in Hk.
Defined.

Lemma assertions_blind_to_row_order_witness :
  is_Some (feature_aligner [1; 2; 3; 1; 4]%Z
             four_items four_items four_items four_items)
  ↔ is_Some (feature_aligner [1; 2; 3; 1; 4]%Z
               (reverse four_items) four_items four_items four_items).
Proof.
  apply (assertions_blind_to_row_order [1; 2; 3; 1; 4]%Z
           four_items four_items four_items four_items
           (reverse four_items) four_items four_items four_items);
    [symmetry; apply reverse_Permutation|done..].
Defined.



(** ** User features *)

Section user_feat_props.
Context {uvec : Type} (isna : uvec → bool).

(** Cell 10 row by row. *)
Lemma user_feat_rows (mapping : gmap string nat)
    (df_feature : list (string * uvec)) :
  user_feat isna mapping df_feature
  = omap (λ xv, if isna xv.2 then None
                else (λ i, (i, xv.2)) <$> mapping !! xv.1) df_feature.
Proof.
  unfold user_feat. induction df_feature as [|[x v] l IH]; [done|].
  rewrite fmap_cons, filter_cons. csimpl. rewrite <- IH. clear IH.
  case_decide as Hd; simpl in Hd.
  - destruct Hd as [[i Hi] ->]. simpl. by rewrite Hi.
  - destruct (isna v); [done|]. destruct (mapping !! x) as [i|]; [|done].
    destruct Hd. eauto.
Qed.

Lemma elem_of_user_feat (mapping : gmap string nat) df_feature i v :
  (i, v) ∈ user_feat isna mapping df_feature
  ↔ ∃ x, (x, v) ∈ df_feature ∧ mapping !! x = Some i ∧ isna v = false.
Proof.
  rewrite user_feat_rows, list_elem_of_omap. split.
  - intros ([x v'] & Hin & Hxv). simpl in Hxv.
    destruct (isna v') eqn:Hna; [done|].
    destruct (mapping !! x) as [j|] eqn:Hj; simplify_eq/=. by exists x.
  - intros (x & Hin & Hx & Hna). exists (x, v). split; [done|].
    simpl. by rewrite Hna, Hx.
Qed.

(** The saved rows are the rows of the frame with a key and without
    NaN, in the order of the frame. *)
Lemma user_feat_payload (mapping : gmap string nat) df_feature :
  (user_feat isna mapping df_feature).*2
  = (filter (λ xv, is_Some (mapping !! xv.1) ∧ isna xv.2 = false)
       df_feature).*2.
Proof.
  rewrite user_feat_rows. induction df_feature as [|[x v] l IH]; [done|].
  rewrite filter_cons. csimpl. case_decide as Hd; simpl in Hd.
  - destruct Hd as [[i Hi] ->]. rewrite Hi. csimpl. by rewrite IH.
  - destruct (isna v); [done|]. destruct (mapping !! x) as [i|]; [|done].
    destruct Hd. eauto.
Qed.

Lemma user_feat_NoDup (mapping : gmap string nat) df_feature :
  (∀ k1 k2 i, mapping !! k1 = Some i → mapping !! k2 = Some i → k1 = k2) →
  NoDup df_feature.*1 → NoDup (user_feat isna mapping df_feature).*1.
Proof.
  intros Hinj. rewrite user_feat_rows.
  induction df_feature as [|[x v] l IH]; [constructor|].
  rewrite fmap_cons, NoDup_cons. intros [Hx Hnd]. csimpl.
  destruct (isna v); [by apply IH|].
  destruct (mapping !! x) as [i|] eqn:Hi; [|by apply IH].
  csimpl. apply NoDup_cons. split; [|by apply IH].
  intros ([i' v'] & -> & Hin)%list_elem_of_fmap. simpl in *.
  rewrite <- user_feat_rows in Hin.
  apply elem_of_user_feat in Hin as (x' & Hin & Hx' & _).
  rewrite (Hinj _ _ _ Hi Hx') in Hx. apply Hx, list_elem_of_fmap.
  by exists (x', v').
Qed.
End user_feat_props.

(** X13.  The user-feature rows of the run are keyed by user ID: every
    key lies in [num_item, num_item + num_user); the rows are those of
    the feature frame whose buyer survived the filters and that hold no
    NaN, in the order of the frame; without NaN in the frame every user
    ID has a row; and with one row per buyer in the frame no key
    repeats. *)
Theorem user_features_keyed_by_user_id {vec uvec : Type} (isna : uvec → bool)
    CUT df (image text price transaction : table vec)
    (df_feature : list (string * uvec)) rows :
  label_generator
    (threshold_filter CUT df image text price transaction df_feature)
    = Some rows →
  let user := l_Buyer <$> rows in
  let item := l_Token_ID <$> rows in
  let feat := user_feat isna (mapping_u user item) df_feature in
  (∀ u, u ∈ feat.*1 → len_set item ≤ u < len_set item + len_set user)
  ∧ feat.*2
    = (filter (λ xv, xv.1 ∈ user ∧ isna xv.2 = false) df_feature).*2
  ∧ ((∀ xv, xv ∈ df_feature → isna xv.2 = false) →
     ∀ u, len_set item ≤ u < len_set item + len_set user → u ∈ feat.*1)
  ∧ (NoDup df_feature.*1 → NoDup feat.*1).
Proof.
  intros Hrows user item feat. subst feat. split_and!.
  - intros u ([u' v] & -> & Hin)%list_elem_of_fmap.
    apply elem_of_user_feat in Hin as (x & _ & Hx & _).
    apply (mapping_unique_image str_le user). by exists x.
  - rewrite user_feat_payload. f_equal. apply filter_ext_elem.
    intros [x v] _. unfold mapping_u.
    by rewrite (mapping_unique_dom str_le).
  - intros Hna u Hu.
    apply (mapping_unique_image str_le user) in Hu as [x Hx].
    assert (x ∈ user) as Hin
      by (apply (mapping_unique_dom str_le user (len_set item)); eauto).
    assert (x ∈ df_feature.*1) as ([x' v] & -> & Hxv)%list_elem_of_fmap.
    { subst user. apply label_generator_Some in Hrows as (Hb & _).
      rewrite Hb in Hin.
      apply list_elem_of_fmap in Hin as (r & -> & [_ Hr]%list_elem_of_filter).
      unfold threshold_filter in Hr. rewrite user_cut_filter in Hr.
      apply list_elem_of_filter in Hr as [_ Hr].
      by apply elem_of_feature_filter in Hr as (_ & _ & ?). }
    apply list_elem_of_fmap. exists (u, v). split; [done|].
    apply elem_of_user_feat. exists x'. split_and!; [done..|].
    by apply (Hna (x', v)).
  - apply user_feat_NoDup. intros k1 k2 i.
    apply (mapping_unique_inj str_le).
Qed.

Lemma user_features_keyed_by_user_id_witness :
  ∃ rows,
    label_generator
      (threshold_filter 5 frame_five_sales
         four_items four_items four_items four_items [("B", ()); ("A", ())])
      = Some rows
    ∧ NoDup (user_feat (λ _, false)
               (mapping_u (l_Buyer <$> rows) (l_Token_ID <$> rows))
               [("B", ()); ("A", ())]).*1.
Proof.
  eexists. split; [by vm_compute|].
  eapply (user_features_keyed_by_user_id (λ _, false) 5 frame_five_sales
            four_items four_items four_items four_items
            [("B", ()); ("A", ())]).
  - by vm_compute.
  - by apply (bool_decide_unpack _).
Defined.


(** ** Rows of a user in [inter] *)

Lemma length_filter_fmap {A B} `{EqDecision B} (f : A → B) (b : B) (l : list A) :
  length (filter (λ a, f a = b) l) = length (filter (λ y, y = b) (f <$> l)).
Proof.
  induction l as [|a l IH]; [done|].
  rewrite fmap_cons, !filter_cons. case_decide; simpl; by rewrite IH.
Qed.

(** Counting through an injective dictionary. *)
Lemma length_filter_mapped `{Countable K} (m : gmap K nat) (xs : list K)
    (us : list nat) x u :
  (∀ k1 k2 i, m !! k1 = Some i → m !! k2 = Some i → k1 = k2) →
  Forall2 (λ x u, m !! x = Some u) xs us → m !! x = Some u →
  length (filter (λ y, y = u) us) = length (filter (λ y, y = x) xs).
Proof.
  intros Hinj Hxs Hx. induction Hxs as [|x' u' xs us Hx' _ IH]; [done|].
  rewrite !filter_cons. destruct (decide (u' = u)) as [->|Hne].
  - rewrite (Hinj _ _ _ Hx' Hx), decide_True by done. simpl. by rewrite IH.
  - rewrite decide_False by congruence. done.
Qed.

Lemma make_inter_user_column (user : list string) (item : list Z) labels inter :
  length user = length item → length labels = length item →
  make_inter user item labels = Some inter →
  Forall2 (λ x u, mapping_u user item !! x = Some u) user (i_user <$> inter).
Proof.
  intros Hu Hl. unfold make_inter.
  destruct (mapM _ user) as [user_|] eqn:Huser; [|done]. simpl.
  destruct (mapM _ item) as [item_|] eqn:Hitem; [|done]. simpl.
  intros [= <-]. apply mapM_Some_1 in Huser, Hitem.
  assert (i_user <$> zip_with (λ u il, InterRow u il.1 il.2) user_
                       (zip item_ labels) = user_) as ->; [|done].
  apply Forall2_length in Huser, Hitem.
  revert item_ labels user item Hu Hl Huser Hitem.
  induction user_ as [|u user_ IH];
    intros [|k item_] [|l labels] [|? user] [|? item] ????;
    simplify_eq/=; [done|].
  f_equal. by eapply (IH _ _ user item).
Qed.

(** X14.  A user has in [inter] as many rows as the buyer has rows
    with the marker in the filtered frame.  USER_CUT was applied before
    the rows without the marker were dropped: when every price carries
    the marker each user of [inter] has at least USER_CUT rows. *)
Theorem user_rows_counted_before_marker_filter {vec uvec : Type}
    CUT df (image text price transaction : table vec)
    (df_feature : list (string * uvec)) rows inter :
  let frame :=
    threshold_filter CUT df image text price transaction df_feature in
  label_generator frame = Some rows →
  make_inter (l_Buyer <$> rows) (l_Token_ID <$> rows) (l_Price_diff <$> rows)
    = Some inter →
  (∀ x u, mapping_u (l_Buyer <$> rows) (l_Token_ID <$> rows) !! x = Some u →
     length (filter (λ r, i_user r = u) inter)
     = rows_of_buyer x (filter (λ r, contains_dollar (Price r) = true) frame))
  ∧ ((∀ r, r ∈ frame → contains_dollar (Price r) = true) →
     ∀ u, u ∈ i_user <$> inter →
          CUT ≤ length (filter (λ r, i_user r = u) inter)).
Proof.
  intros frame Hrows Hinter.
  apply make_inter_user_column in Hinter; [|by rewrite !length_fmap..].
  apply label_generator_Some in Hrows as (Hb & _).
  assert (∀ x u,
    mapping_u (l_Buyer <$> rows) (l_Token_ID <$> rows) !! x = Some u →
    length (filter (λ r, i_user r = u) inter)
    = rows_of_buyer x (filter (λ r, contains_dollar (Price r) = true) frame))
    as Hcount.
  { intros x u Hx. unfold rows_of_buyer.
    rewrite (length_filter_fmap i_user), (length_filter_fmap Buyer), <- Hb.
    eapply length_filter_mapped; [|done..].
    intros k1 k2 i. apply (mapping_unique_inj str_le). }
  split; [done|]. intros Hall u [i Hi]%list_elem_of_lookup.
  destruct (Forall2_lookup_r _ _ _ _ _ Hinter Hi) as (x & Hxi & Hx).
  rewrite (Hcount x u Hx).
  rewrite Hb in Hxi. rewrite (filter_all _ frame) in Hxi |- * by done.
  apply list_elem_of_lookup_2, list_elem_of_fmap in Hxi as (r & -> & Hr).
  subst frame. unfold threshold_filter in *.
  rewrite rows_of_buyer_user_cut. rewrite user_cut_filter in Hr.
  apply list_elem_of_filter in Hr as [Hcut _]. by rewrite decide_True.
Qed.

Lemma user_rows_counted_before_marker_filter_witness :
  ∃ rows inter,
    label_generator
      (threshold_filter 5 frame_five_sales
         four_items four_items four_items four_items [("A", ())]) = Some rows
    ∧ make_inter (l_Buyer <$> rows) (l_Token_ID <$> rows)
        (l_Price_diff <$> rows) = Some inter
    ∧ 5 ≤ length (filter (λ r, i_user r = 4) inter).
Proof.
  eexists _, _. split_and!; [by vm_compute..|].
  eapply (user_rows_counted_before_marker_filter 5 frame_five_sales
            four_items four_items four_items four_items [("A", ())]).
  - by vm_compute.
  - by vm_compute.
  - intros r Hr. vm_compute in Hr.
    by repeat (apply elem_of_cons in Hr as [->|Hr]; [done|]);
      apply elem_of_nil in Hr.
  - vm_compute. set_solver.
Defined.
